(** * Stack watermark barrier: a shallow embedding of
      [src/hotspot/share/runtime/stackWatermark.cpp]

    The controller ([StackWatermark]) owns an optional frame cursor
    ([StackWatermarkIterator]), the published watermark address and the
    epoch/state word.  Every member function of the C++ file is a
    computation in a small state-and-error monad over a [World]: the
    controller object, the monitored thread's stack, the global epoch and
    the trace of observable effects (frame-processing callbacks, release
    stores, lock operations).  A failed [assert] of a checked build aborts
    the computation with [Fatal].

    One thread at a time is followed: a lock that is released is taken
    again at once, and what the collector and the monitored thread do in
    between calls (a new global epoch, another stack) are steps of their
    own.  Logging, the handle and resource marks around the callback and
    the freeing of a replaced cursor leave no mark on the state the
    properties below speak of and are left out. *)

From Stdlib Require Import List Bool NArith Arith Lia String.
Import ListNotations.

Local Open Scope N_scope.

(** ** Machine types *)

(** [uintptr_t] and [uint32_t].  The file never does arithmetic on either:
    addresses and epochs are only stored and compared, so no wrap-around
    can occur and the unbounded naturals carry them exactly. *)
Definition uintptr_t := N.
Definition uint32_t := N.

(** Modelled from the spec: class [frame] (runtime/frame.hpp) and
    [StackWatermark::has_barrier] (stackWatermark.inline.hpp) are not among
    the sources at hand.  The spec lists what the frame walker exposes of a
    frame: its address ([f.sp()]), whether it is barrier-eligible
    ([has_barrier(f)]) and whether it is a transitional frame to be
    resolved to its logical caller ([f.is_safepoint_blob_frame()]). *)
Record frame : Type := Frame {
  sp : uintptr_t;
  has_barrier : bool;
  is_safepoint_blob_frame : bool
}.

(** Modelled from the spec: [JavaThread] (runtime/thread.hpp) is not among
    the sources at hand.  What the controller asks of the monitored thread
    is whether it currently has stack frames and, through the frame walker,
    which: its stack at this instant, top of stack first. *)
Record JavaThread : Type := Thread {
  stack : list frame
}.

Definition has_last_Java_frame (jt : JavaThread) : bool :=
  match stack jt with [] => false | _ :: _ => true end.

(** Modelled from the spec: [StackWatermarkState] is declared in
    stackWatermark.hpp, which is not part of the sources at hand.  The spec
    describes it as one atomically accessed value packing
    (epoch, done : bool); [create] builds it and [epoch], [is_done] read the
    two components back. *)
Record StackWatermarkState : Type := create {
  epoch : uint32_t;
  is_done : bool
}.

(** ** The frame cursor *)

(** Modelled from the spec: [StackFrameStream] (runtime/frame.hpp) is not
    among the sources at hand.  The spec has the frame walker enumerate the
    frames of a thread one after the other, from top to bottom: the stream
    is the list of frames not yet left behind, the current one first, and
    is done when none is left. *)
Record StackFrameStream : Type := Stream {
  frames : list frame
}.

Definition stream_is_done (s : StackFrameStream) : bool :=
  match frames s with [] => true | _ :: _ => false end.

Definition stream_current (s : StackFrameStream) : option frame :=
  hd_error (frames s).

Definition stream_next (s : StackFrameStream) : StackFrameStream :=
  Stream (tl (frames s)).

(** [StackWatermarkIterator].  [_jt] and [_owner] are references to the
    thread and the controller, which live in the [World] below. *)
Record StackWatermarkIterator : Type := Iterator {
  _caller : uintptr_t;
  _callee : uintptr_t;
  _frame_stream : StackFrameStream;
  _is_done : bool
}.

Definition has_next (it : StackWatermarkIterator) : bool :=
  negb (_is_done it).

(** [current()] dereferences the stream's frame; there is none once the
    stream is done. *)
Definition current (it : StackWatermarkIterator) : option frame :=
  stream_current (_frame_stream it).

Definition next (it : StackWatermarkIterator) : StackWatermarkIterator :=
  let s := stream_next (_frame_stream it) in
  Iterator (_caller it) (_callee it) s (stream_is_done s).

Definition caller (it : StackWatermarkIterator) : uintptr_t := _caller it.
Definition callee (it : StackWatermarkIterator) : uintptr_t := _callee it.

(** [StackWatermarkIterator::set_watermark] *)
Definition set_watermark (a : uintptr_t) (it : StackWatermarkIterator)
  : StackWatermarkIterator :=
  if negb (has_next it) then it
  else if _callee it =? 0 then
    Iterator (_caller it) a (_frame_stream it) (_is_done it)
  else if _caller it =? 0 then
    Iterator a (_callee it) (_frame_stream it) (_is_done it)
  else
    Iterator a (_caller it) (_frame_stream it) (_is_done it).

(** The constructor: both boundaries zero, a fresh stream over the
    thread's stack. *)
Definition new_StackWatermarkIterator (jt : JavaThread)
  : StackWatermarkIterator :=
  let s := Stream (stack jt) in
  Iterator 0 0 s (stream_is_done s).

(** ** The controller and the world around it *)

(** [StackWatermark].  Of the mutex [_lock] only [owned_by_self()] is
    kept; [_jt] refers to the thread in the [World] below; [_next] and
    [_kind] are not read by any member in this file. *)
Record StackWatermark : Type := Controller {
  _state : StackWatermarkState;
  _watermark : uintptr_t;
  _iterator : option StackWatermarkIterator;
  _lock : bool
}.

(** The opaque [void* context] handed to the processing callback. *)
Definition context := uintptr_t.
Definition NULL : context := 0.

Inductive event : Type :=
| EvProcess (f : frame) (ctx : context)   (* _owner.process(f, map, context) *)
| EvStoreWatermark (a : uintptr_t)        (* release_store(&_watermark, a) *)
| EvStoreState (s : StackWatermarkState)  (* release_store(&_state, s) *)
| EvLock                                  (* _lock acquired *)
| EvUnlock.                               (* _lock released *)

Record World : Type := MkWorld {
  wm : StackWatermark;        (* the controller object *)
  jt : JavaThread;            (* *_jt, the monitored thread *)
  epoch_id : uint32_t;        (* what the virtual epoch_id() returns *)
  trace : list event          (* effects so far, oldest first *)
}.

Definition with_wm (f : StackWatermark -> StackWatermark) (w : World) : World :=
  MkWorld (f (wm w)) (jt w) (epoch_id w) (trace w).

Definition with_event (e : event) (w : World) : World :=
  MkWorld (wm w) (jt w) (epoch_id w) (trace w ++ [e]).

Definition put_state (s : StackWatermarkState) (o : StackWatermark) :=
  Controller s (_watermark o) (_iterator o) (_lock o).
Definition put_watermark (a : uintptr_t) (o : StackWatermark) :=
  Controller (_state o) a (_iterator o) (_lock o).
Definition put_iterator (i : option StackWatermarkIterator) (o : StackWatermark) :=
  Controller (_state o) (_watermark o) i (_lock o).
Definition put_lock (b : bool) (o : StackWatermark) :=
  Controller (_state o) (_watermark o) (_iterator o) b.

(** ** The monad *)

Inductive result (A : Type) : Type :=
| Ok (a : A) (w : World)
| Fatal (msg : string).        (* the VM aborts *)
Arguments Ok {A} a w.
Arguments Fatal {A} msg.

Definition M (A : Type) : Type := World -> result A.

Definition ret {A} (a : A) : M A := fun w => Ok a w.

Definition bind {A B} (m : M A) (k : A -> M B) : M B :=
  fun w => match m w with
           | Ok a w' => k a w'
           | Fatal msg => Fatal msg
           end.

Declare Scope wm_scope.
Delimit Scope wm_scope with wm.
Notation "x <- m ;; k" := (bind m (fun x => k))
  (at level 61, m at next level, right associativity) : wm_scope.
Notation "m ;; k" := (bind m (fun _ => k))
  (at level 61, right associativity) : wm_scope.
Local Open Scope wm_scope.

Definition fatal {A} (msg : string) : M A := fun _ => Fatal msg.
Definition get : M World := fun w => Ok w w.
Definition modify (f : World -> World) : M unit := fun w => Ok tt (f w).
Definition emit (e : event) : M unit := modify (with_event e).

(** The two ways a cursor is advanced. *)
Inductive cursor_call : Type :=
| CursorProcessOne (ctx : context)
| CursorProcessAll (ctx : context).

(** What happens to a controller during its life: the collector sets a new
    global epoch, the monitored thread runs on and has another stack, or one
    of the public operations is called. *)
Inductive action : Type :=
| EpochAdvances (e : uint32_t)
| ThreadRuns (fs : list frame)
| StartIteration
| ProcessOne
| FinishIteration (ctx : context)
| IsFrameSafe (fr : frame)
| Watermark
| LastProcessed.

Section Build.

(** Whether [assert] is compiled in (a checked build) or expands to
    nothing (a product build). *)
Variable ASSERT : bool.

(** How the frame walker resolves a frame to its sender,
    [fr.sender(&reg_map)]. *)
Variable sender : frame -> frame.

Definition vmassert (c : bool) (msg : string) : M unit :=
  if ASSERT && negb c then fatal msg else ret tt.

(** ** Lock primitives *)

Definition lock : M unit :=
  modify (with_wm (put_lock true)) ;; emit EvLock.

Definition unlock : M unit :=
  modify (with_wm (put_lock false)) ;; emit EvUnlock.

(** [MutexLocker ml(&_lock, ...)] guarding the rest of a function body. *)
Definition MutexLocker {A} (body : M A) : M A :=
  lock ;; a <- body ;; unlock ;; ret a.

(** [MutexUnlocker mul(&_lock, ...)] guarding the rest of a block. *)
Definition MutexUnlocker {A} (body : M A) : M A :=
  unlock ;; a <- body ;; lock ;; ret a.

(** ** Members of the cursor that reach back into the owner

    The owner holds the one cursor in [_iterator] and the cursor holds a
    reference [_owner] to it: a member of the cursor runs on the owner's
    [_iterator] field, so that what [_owner.update_watermark()] reads in the
    middle of [process_all] is the cursor being advanced. *)

Definition this : M StackWatermarkIterator :=
  w <- get ;;
  match _iterator (wm w) with
  | Some it => ret it
  | None => fatal "null iterator"
  end.

Definition call (method : StackWatermarkIterator -> StackWatermarkIterator)
  : M unit :=
  it <- this ;; modify (with_wm (put_iterator (Some (method it)))).

(** [frame f = current()]. *)
Definition current_frame : M frame :=
  it <- this ;;
  match current it with
  | Some f => ret f
  | None => fatal "current: the frame stream is done"
  end.

Definition frames_left : M nat :=
  it <- this ;; ret (List.length (frames (_frame_stream it))).

(** [StackWatermark::update_watermark] *)
Definition update_watermark : M unit :=
  w <- get ;;
  vmassert (_lock (wm w)) "invariant" ;;
  let finished :=
    modify (with_wm (put_watermark 0)) ;;
    emit (EvStoreWatermark 0) ;;
    modify (with_wm (put_state (create (epoch_id w) true))) ;;
    emit (EvStoreState (create (epoch_id w) true)) in
  match _iterator (wm w) with
  | Some it =>
    if has_next it then
      vmassert (negb (callee it =? 0)) "sanity" ;;
      modify (with_wm (put_watermark (callee it))) ;;
      emit (EvStoreWatermark (callee it)) ;;
      modify (with_wm (put_state (create (epoch_id w) false))) ;;
      emit (EvStoreState (create (epoch_id w) false))
    else finished
  | None => finished
  end.

(** The [while (has_next())] loop of [StackWatermarkIterator::process_one].
    Every pass calls [next()] once, so the number of frames left plus one
    bounds the number of tests of the loop condition; [fuel] is that bound.
    The result is the local [sp]. *)
Fixpoint process_one_loop (fuel : nat) (ctx : context) (a : uintptr_t)
  : M uintptr_t :=
  match fuel with
  | O => fatal "process_one: loop bound exceeded"
  | S fuel' =>
    it <- this ;;
    if has_next it then
      f <- current_frame ;;
      let a := sp f in
      let frame_has_barrier := has_barrier f in
      emit (EvProcess f ctx) ;;
      call next ;;
      if frame_has_barrier then ret a
      else process_one_loop fuel' ctx a
    else ret a
  end.

(** [StackWatermarkIterator::process_one] *)
Definition iterator_process_one (ctx : context) : M unit :=
  n <- frames_left ;;
  a <- process_one_loop (S n) ctx 0 ;;
  call (set_watermark a).

Definition frames_per_poll_gc : N := 5.

(** The loop of [StackWatermarkIterator::process_all]; [i] is the local
    counter of barrier frames since the last yield. *)
Fixpoint process_all_loop (fuel : nat) (ctx : context) (i : N) : M unit :=
  match fuel with
  | O => fatal "process_all: loop bound exceeded"
  | S fuel' =>
    it <- this ;;
    if has_next it then
      f <- current_frame ;;
      vmassert (caller it <=? sp f) "invariant" ;;
      let a := sp f in
      let frame_has_barrier := has_barrier f in
      emit (EvProcess f ctx) ;;
      call next ;;
      if frame_has_barrier then
        call (set_watermark a) ;;
        if i + 1 =? frames_per_poll_gc then
          (* Yield every N frames so mutator can progress faster. *)
          update_watermark ;;
          MutexUnlocker (ret tt) ;;
          process_all_loop fuel' ctx 0
        else process_all_loop fuel' ctx (i + 1)
      else process_all_loop fuel' ctx i
    else ret tt
  end.

(** [StackWatermarkIterator::process_all] *)
Definition iterator_process_all (ctx : context) : M unit :=
  n <- frames_left ;;
  process_all_loop (S n) ctx 0.

(** ** Members of the controller *)

(** The constructor [StackWatermark::StackWatermark(jt, kind, epoch)]. *)
Definition new_StackWatermark (e : uint32_t) : StackWatermark :=
  Controller (create e true) 0 None false.

(** [StackWatermark::should_start_iteration]; the acquire variant reads the
    same word. *)
Definition should_start_iteration : M bool :=
  w <- get ;; ret (negb (epoch (_state (wm w)) =? epoch_id w)).

Definition should_start_iteration_acquire : M bool := should_start_iteration.

(** [StackWatermark::start_iteration_impl] *)
Definition start_iteration_impl (ctx : context) : M unit :=
  w <- get ;;
  (if has_last_Java_frame (jt w) then
     modify (with_wm (put_iterator (Some (new_StackWatermarkIterator (jt w))))) ;;
     iterator_process_one ctx ;;
     iterator_process_one ctx ;;
     iterator_process_one ctx
   else
     modify (with_wm (put_iterator None))) ;;
  update_watermark.

(** [StackWatermark::process_one] *)
Definition process_one : M unit :=
  MutexLocker (
    stale <- should_start_iteration ;;
    if stale then start_iteration_impl NULL
    else
      w <- get ;;
      match _iterator (wm w) with
      | Some _ => iterator_process_one NULL ;; update_watermark
      | None => ret tt
      end).

(** [StackWatermark::watermark] *)
Definition watermark : M uintptr_t :=
  w <- get ;; ret (_watermark (wm w)).

(** [StackWatermark::last_processed] *)
Definition last_processed : M uintptr_t :=
  MutexLocker (
    stale <- should_start_iteration ;;
    if stale then ret 0
    else
      a <- watermark ;;
      if a =? 0 then ret 0
      else
        w <- get ;;
        match _iterator (wm w) with
        | None => ret 0
        | Some it => ret (caller it)
        end).

(** [StackWatermark::start_iteration] *)
Definition start_iteration : M unit :=
  stale <- should_start_iteration_acquire ;;
  if stale then
    MutexLocker (
      stale' <- should_start_iteration ;;
      if stale' then start_iteration_impl NULL else ret tt)
  else ret tt.

(** [StackWatermark::finish_iteration] *)
Definition finish_iteration (ctx : context) : M unit :=
  MutexLocker (
    stale <- should_start_iteration ;;
    (if stale then start_iteration_impl ctx else ret tt) ;;
    w <- get ;;
    match _iterator (wm w) with
    | Some _ => iterator_process_all ctx
    | None => ret tt
    end ;;
    update_watermark).

(** [StackWatermark::is_frame_safe] *)
Definition is_frame_safe (fr : frame) : M bool :=
  MutexLocker (
    w <- get ;;
    let state := _state (wm w) in
    if negb (epoch state =? epoch_id w) then ret false
    else if is_done state then ret true
    else
      match _iterator (wm w) with
      | Some it =>
        let fr := if is_safepoint_blob_frame fr then sender fr else fr in
        ret (sp fr <? caller it)
      | None => ret true
      end).

(** ** Sequences of calls *)

Definition cursor_step (c : cursor_call) : M unit :=
  match c with
  | CursorProcessOne ctx => iterator_process_one ctx
  | CursorProcessAll ctx => iterator_process_all ctx
  end.

Fixpoint cursor_run (cs : list cursor_call) : M unit :=
  match cs with
  | [] => ret tt
  | c :: cs' => cursor_step c ;; cursor_run cs'
  end.

Definition perform (a : action) : M unit :=
  match a with
  | EpochAdvances e =>
      modify (fun w => MkWorld (wm w) (jt w) e (trace w))
  | ThreadRuns fs =>
      modify (fun w => MkWorld (wm w) (Thread fs) (epoch_id w) (trace w))
  | StartIteration => start_iteration
  | ProcessOne => process_one
  | FinishIteration ctx => finish_iteration ctx
  | IsFrameSafe fr => is_frame_safe fr ;; ret tt
  | Watermark => watermark ;; ret tt
  | LastProcessed => last_processed ;; ret tt
  end.

Fixpoint run (acts : list action) : M unit :=
  match acts with
  | [] => ret tt
  | a :: acts' => perform a ;; run acts'
  end.

End Build.

(** ** What one step and one walk do to the cursor, as pure functions *)

(** The frames one [process_one] of the cursor visits: those up to and
    including the next barrier frame, all of them if none is left. *)
Fixpoint through_barrier (fs : list frame) : list frame :=
  match fs with
  | [] => []
  | f :: fs' => if has_barrier f then [f] else f :: through_barrier fs'
  end.

(** The frames left after that. *)
Fixpoint after_barrier (fs : list frame) : list frame :=
  match fs with
  | [] => []
  | f :: fs' => if has_barrier f then fs' else after_barrier fs'
  end.

(** Visiting one frame: the stream moves on and a barrier frame's address
    is handed to [set_watermark]. *)
Definition visit (it : StackWatermarkIterator) (f : frame)
  : StackWatermarkIterator :=
  if has_barrier f then set_watermark (sp f) (next it) else next it.

Definition walk (vs : list frame) (it : StackWatermarkIterator)
  : StackWatermarkIterator :=
  fold_left visit vs it.

(** The cursor after one [process_one]. *)
Definition advance (it : StackWatermarkIterator) : StackWatermarkIterator :=
  walk (through_barrier (frames (_frame_stream it))) it.

(** The cursor after [process_all]. *)
Definition drain (it : StackWatermarkIterator) : StackWatermarkIterator :=
  walk (frames (_frame_stream it)) it.

(** What [update_watermark] publishes for a given cursor and epoch. *)
Definition published (oit : option StackWatermarkIterator) (e : uint32_t)
  : uintptr_t * StackWatermarkState :=
  match oit with
  | Some it => if has_next it then (callee it, create e false)
               else (0, create e true)
  | None => (0, create e true)
  end.
Arguments published : simpl never.

(** ** Reading results and traces *)

(** The value a computation returns, if it returns. *)
Definition answer {A} (r : result A) : option A :=
  match r with Ok a _ => Some a | Fatal _ => None end.

(** The frames handed to the processing callback, in order. *)
Fixpoint processed (tr : list event) : list frame :=
  match tr with
  | [] => []
  | EvProcess f _ :: tr' => f :: processed tr'
  | _ :: tr' => processed tr'
  end.

(** The release stores, in order. *)
Fixpoint stores (tr : list event) : list event :=
  match tr with
  | [] => []
  | EvStoreWatermark a :: tr' => EvStoreWatermark a :: stores tr'
  | EvStoreState s :: tr' => EvStoreState s :: stores tr'
  | _ :: tr' => stores tr'
  end.

Definition process_events (ctx : context) (fs : list frame) : list event :=
  map (fun f => EvProcess f ctx) fs.

(** ** Shapes of stacks and cursors *)

(** Stack shapes: no frame at the null address; addresses do not decrease
    from the top of the stack to its bottom. *)
Definition nonzero_sps (fs : list frame) : bool :=
  forallb (fun f => negb (sp f =? 0)) fs.

Fixpoint ascending (fs : list frame) : bool :=
  match fs with
  | [] => true
  | f :: fs' => forallb (fun g => sp f <=? sp g) fs' && ascending fs'
  end.

(** The cursor's caller boundary is below every frame still to visit. *)
Definition caller_below (it : StackWatermarkIterator) : bool :=
  forallb (fun f => caller it <=? sp f) (frames (_frame_stream it)).

(** The cursor's cached flag agrees with its stream.  The constructor and
    [next()] establish this and no member breaks it. *)
Definition coherent (it : StackWatermarkIterator) : bool :=
  Bool.eqb (_is_done it) (stream_is_done (_frame_stream it)).

Definition coherent_cursor (w : World) : bool :=
  match _iterator (wm w) with
  | Some it => coherent it
  | None => true
  end.

(** A cursor with the given boundaries over the given frames. *)
Definition cursor_at (c e : uintptr_t) (fs : list frame)
  : StackWatermarkIterator :=
  Iterator c e (Stream fs) (stream_is_done (Stream fs)).

(** A cursor fit for a checked build: no null address ahead, addresses
    ascending, the caller boundary below all of them. *)
Definition cursor_ok (it : StackWatermarkIterator) : bool :=
  nonzero_sps (frames (_frame_stream it))
  && ascending (frames (_frame_stream it))
  && caller_below it.

(** ** Steps, drains and their pacing *)

(** The trace of a drain as the spec words it: frames are processed one
    after the other until none is left, and right after every fifth barrier
    frame the boundary is published and the lock released and taken again.
    [i] counts the barrier frames since the last yield. *)
Inductive paced (ctx : context) (g : uint32_t)
  : N -> StackWatermarkIterator -> list event -> Prop :=
| paced_done i it :
    has_next it = false -> paced ctx g i it []
| paced_plain i it f tr :
    current it = Some f -> has_barrier f = false ->
    paced ctx g i (visit it f) tr ->
    paced ctx g i it (EvProcess f ctx :: tr)
| paced_count i it f tr :
    current it = Some f -> has_barrier f = true ->
    i + 1 <> frames_per_poll_gc ->
    paced ctx g (i + 1) (visit it f) tr ->
    paced ctx g i it (EvProcess f ctx :: tr)
| paced_yield i it f tr :
    current it = Some f -> has_barrier f = true ->
    i + 1 = frames_per_poll_gc ->
    paced ctx g 0 (visit it f) tr ->
    paced ctx g i it
      (EvProcess f ctx
       :: EvStoreWatermark (fst (published (Some (visit it f)) g))
       :: EvStoreState (snd (published (Some (visit it f)) g))
       :: EvUnlock :: EvLock :: tr).

(** Barrier frames processed in each stretch of a trace during which the
    lock is held without a break; [n] is the count carried into the trace. *)
Fixpoint barrier_runs (n : N) (tr : list event) : list N :=
  match tr with
  | [] => [n]
  | EvUnlock :: tr' => n :: barrier_runs 0 tr'
  | EvProcess f _ :: tr' =>
      barrier_runs (if has_barrier f then n + 1 else n) tr'
  | _ :: tr' => barrier_runs n tr'
  end.

(** Number of yields (lock releases) in a trace. *)
Fixpoint yields (tr : list event) : N :=
  match tr with
  | [] => 0
  | EvUnlock :: tr' => 1 + yields tr'
  | _ :: tr' => yields tr'
  end.

Definition barrier_count (fs : list frame) : N :=
  N.of_nat (List.length (filter has_barrier fs)).

(** The frames [n] successive steps of the cursor visit, and what is left
    after them. *)
Fixpoint through_barriers (n : nat) (fs : list frame) : list frame :=
  match n with
  | O => []
  | S n' => through_barrier fs ++ through_barriers n' (after_barrier fs)
  end.

Fixpoint after_barriers (n : nat) (fs : list frame) : list frame :=
  match n with
  | O => fs
  | S n' => after_barriers n' (after_barrier fs)
  end.

(** The cursor [start_iteration_impl] leaves behind: a fresh one advanced
    three times, or none for a thread without frames. *)
Definition bootstrap (j : JavaThread) : StackWatermarkIterator :=
  advance (advance (advance (new_StackWatermarkIterator j))).

Definition started (j : JavaThread) : option StackWatermarkIterator :=
  if has_last_Java_frame j then Some (bootstrap j) else None.

(** Whether the cached epoch differs from the global one. *)
Definition stale (w : World) : bool :=
  negb (epoch (_state (wm w)) =? epoch_id w).

(** The frames a forced completion has to get through: the whole stack
    when a new iteration must be started, else what the cursor has left. *)
Definition frames_of (oit : option StackWatermarkIterator) : list frame :=
  match oit with
  | Some it => frames (_frame_stream it)
  | None => []
  end.

Definition remaining (w : World) : list frame :=
  if stale w then stack (jt w) else frames_of (_iterator (wm w)).

(** The iteration a forced completion works on, and what starting it
    (when the epoch is stale) adds to the trace. *)
Definition forced_cursor (s : StackWatermarkState) (oit : option StackWatermarkIterator)
  (j : JavaThread) (g : uint32_t) : option StackWatermarkIterator :=
  if epoch s =? g then oit else started j.

Definition forced_start (ctx : context) (s : StackWatermarkState)
  (j : JavaThread) (g : uint32_t) : list event :=
  if epoch s =? g then []
  else process_events ctx (through_barriers 3 (stack j))
       ++ [EvStoreWatermark (fst (published (started j) g));
           EvStoreState (snd (published (started j) g))].

(** What a checked build needs of a world for a forced completion to get
    through its assertions. *)
Definition walkable (w : World) : bool :=
  if stale w then nonzero_sps (stack (jt w)) && ascending (stack (jt w))
  else match _iterator (wm w) with
       | Some it => cursor_ok it
       | None => true
       end.

(** ** The two-slot ring, by count *)

(** The boundary pair (callee, caller) as the spec words the folding,
    by the number of folds so far: the first fold sets callee, the second
    sets caller, every later one shifts. *)
Definition fold_nth (n : nat) (p : uintptr_t * uintptr_t) (a : uintptr_t)
  : uintptr_t * uintptr_t :=
  match n with
  | O => (a, snd p)
  | S O => (fst p, a)
  | _ => (snd p, a)
  end.

Fixpoint ring_from (n : nat) (p : uintptr_t * uintptr_t) (l : list uintptr_t)
  : uintptr_t * uintptr_t :=
  match l with
  | [] => p
  | a :: l' => ring_from (S n) (fold_nth n p a) l'
  end.

Definition ring (l : list uintptr_t) : uintptr_t * uintptr_t :=
  ring_from 0 (0, 0) l.

(** The addresses folded once [visited] has been visited and [rest] is
    still ahead: those of the barrier frames among [visited], the last frame
    of the stack apart ([set_watermark] does nothing once no frame is
    left). *)
Definition folded (visited rest : list frame) : list uintptr_t :=
  map sp (filter has_barrier
            (match rest with
             | [] => removelast visited
             | _ :: _ => visited
             end)).

Definition boundaries (it : StackWatermarkIterator) : uintptr_t * uintptr_t :=
  (callee it, caller it).

(** The cursor's boundaries are the ring of what was folded on the way
    from the top of the stack [fs]. *)
Definition ring_inv (fs : list frame) (it : StackWatermarkIterator) : Prop :=
  exists visited,
    fs = visited ++ frames (_frame_stream it)
    /\ boundaries it = ring (folded visited (frames (_frame_stream it))).

(** ** Runs *)

(** The world right after a controller is built with epoch [e] for a thread
    whose stack is [fs], the global epoch being [g]. *)
Definition initial (e : uint32_t) (fs : list frame) (g : uint32_t) : World :=
  MkWorld (new_StackWatermark e) (Thread fs) g [].

(** Which stacks the actions of a run give the thread. *)
Fixpoint stacks_all (p : list frame -> bool) (acts : list action) : bool :=
  match acts with
  | [] => true
  | ThreadRuns fs :: acts' => p fs && stacks_all p acts'
  | _ :: acts' => stacks_all p acts'
  end.

(** What holds of a world between two calls.  [A] says whether the
    thread's stacks are known to ascend. *)
Definition inv (A : Prop) (w : World) : Prop :=
  (_watermark (wm w) = 0 <-> is_done (_state (wm w)) = true)
  /\ nonzero_sps (stack (jt w)) = true
  /\ (A -> ascending (stack (jt w)) = true)
  /\ forall it, _iterator (wm w) = Some it ->
       coherent it = true
       /\ nonzero_sps (frames (_frame_stream it)) = true
       /\ (A -> cursor_ok it = true).

Definition action_ok (A : Prop) (a : action) : Prop :=
  match a with
  | ThreadRuns fs => nonzero_sps fs = true /\ (A -> ascending fs = true)
  | _ => True
  end.

(** A stack as the frame walker hands it out: no null address, addresses
    ascending from the top. *)
Definition top_to_bottom (fs : list frame) : bool :=
  nonzero_sps fs && ascending fs.

(** ** Sample frames, stacks and worlds *)

Definition barrier_frame (a : uintptr_t) : frame := Frame a true false.
Definition plain_frame (a : uintptr_t) : frame := Frame a false false.
Definition blob_frame (a : uintptr_t) : frame := Frame a false true.

Definition no_sender (f : frame) : frame := f.

(** A thread with a runtime stub on top of four Java frames; the epoch has
    advanced since the controller was built. *)
Definition stub_on_top : World :=
  initial 1 [plain_frame 8; barrier_frame 16; barrier_frame 32;
             barrier_frame 40; barrier_frame 48] 2.

(** Six frames, a stub in fourth position. *)
Definition stub_in_middle : World :=
  initial 1 [barrier_frame 16; barrier_frame 32; barrier_frame 40;
             plain_frame 48; barrier_frame 64; barrier_frame 80] 2.

(** A thread without frames whose controller is up to date. *)
Definition idle_world : World := initial 2 [] 2.

(** The world as a member running under the lock sees it. *)
Definition locked (w : World) : World := with_wm (put_lock true) w.

(** A controller in the middle of an iteration, between two calls: three
    frames are behind the cursor, three ahead. *)
Definition mid_iteration : World :=
  MkWorld (Controller (create 2 false) 32
             (Some (Iterator 36 32 (Stream [plain_frame 40; barrier_frame 48;
                                            barrier_frame 56]) false))
             false)
          (Thread [barrier_frame 16; barrier_frame 32; barrier_frame 36;
                   plain_frame 40; barrier_frame 48; barrier_frame 56])
          2 [].

(** Twelve frames, eleven of them with a barrier: a drain yields twice. *)
Definition long_stack : list frame :=
  [barrier_frame 16; barrier_frame 32; barrier_frame 48; plain_frame 56;
   barrier_frame 64; barrier_frame 80; barrier_frame 96; barrier_frame 112;
   barrier_frame 128; barrier_frame 144; barrier_frame 160; barrier_frame 176].

Definition long_walk : World :=
  MkWorld (Controller (create 2 false) 0
             (Some (new_StackWatermarkIterator (Thread long_stack))) true)
          (Thread long_stack) 2 [].


(** A life of a controller: two epochs, the thread running in between. *)
Definition busy_life : list action :=
  [StartIteration; ProcessOne; IsFrameSafe (blob_frame 24);
   ThreadRuns long_stack; EpochAdvances 3; ProcessOne; LastProcessed;
   FinishIteration 7; Watermark; EpochAdvances 4; FinishIteration 9].



(** The world [finish_iteration] leaves behind when called with context 7
    on [mid_iteration]: the cursor is kept, with no frame left. *)
Definition exhausted : World :=
  MkWorld (Controller (create 2 true) 0
             (Some (Iterator 48 36 (Stream []) true)) false)
          (Thread [barrier_frame 16; barrier_frame 32; barrier_frame 36;
                   plain_frame 40; barrier_frame 48; barrier_frame 56])
          2
          [EvLock; EvProcess (plain_frame 40) 7;
           EvProcess (barrier_frame 48) 7; EvProcess (barrier_frame 56) 7;
           EvStoreWatermark 0; EvStoreState (create 2 true); EvUnlock].

(** ** Further vocabulary *)

Definition cursor_has_next (o : option StackWatermarkIterator) : bool :=
  match o with
  | Some it => has_next it
  | None => false
  end.

(** The state word says done exactly when no cursor with frames left
    exists. *)
Definition settled (w : World) : bool :=
  Bool.eqb (is_done (_state (wm w)))
           (negb (cursor_has_next (_iterator (wm w)))).

(** What [is_frame_safe] looks at, as a function of the world. *)
Definition frame_safe (sender : frame -> frame) (fr : frame) (w : World)
  : bool :=
  if stale w then false
  else if is_done (_state (wm w)) then true
  else match _iterator (wm w) with
       | Some it =>
         sp (if is_safepoint_blob_frame fr then sender fr else fr)
         <? caller it
       | None => true
       end.

(** What [last_processed] looks at, as a function of the world. *)
Definition last_processed_of (w : World) : uintptr_t :=
  if stale w then 0
  else if _watermark (wm w) =? 0 then 0
  else match _iterator (wm w) with
       | Some it => caller it
       | None => 0
       end.

(** A trace keeps to the lock: the lock is taken only when free and
    released only when held, and frames are processed and words stored only
    while it is held.  The result is whether the lock is held at the end. *)
Fixpoint lock_discipline (held : bool) (tr : list event) : option bool :=
  match tr with
  | [] => Some held
  | EvLock :: tr' => if held then None else lock_discipline true tr'
  | EvUnlock :: tr' => if held then lock_discipline false tr' else None
  | _ :: tr' => if held then lock_discipline true tr' else None
  end.

(** The contexts the processing callback was given, in order. *)
Fixpoint contexts (tr : list event) : list context :=
  match tr with
  | [] => []
  | EvProcess _ ctx :: tr' => ctx :: contexts tr'
  | _ :: tr' => contexts tr'
  end.

(** The cursor after [n] steps. *)
Fixpoint advance_n (n : nat) (it : StackWatermarkIterator)
  : StackWatermarkIterator :=
  match n with
  | O => it
  | S n' => advance_n n' (advance it)
  end.

(** Whether the global epoch stays as it is during the actions. *)
Fixpoint same_epoch (acts : list action) : bool :=
  match acts with
  | [] => true
  | EpochAdvances _ :: _ => false
  | _ :: acts' => same_epoch acts'
  end.

(** The three operations that advance the processing. *)
Definition is_mutator (a : action) : bool :=
  match a with
  | StartIteration | ProcessOne | FinishIteration _ => true
  | _ => false
  end.


(** The addresses of the barrier frames among [vs]. *)
Definition barrier_sps (vs : list frame) : list uintptr_t :=
  map sp (filter has_barrier vs).

(** A boundary is unset or one of the addresses [S]. *)
Definition known (S : list uintptr_t) (a : uintptr_t) : Prop :=
  a = 0 \/ In a S.

(** The frames [visited] lie behind the cursor, they are what the trace
    has gained, and the boundaries are addresses of barrier frames among
    them. *)
Definition visited_inv (fs : list frame) (t0 : list event)
    (it : StackWatermarkIterator) (t : list event) : Prop :=
  exists visited,
    fs = visited ++ frames (_frame_stream it)
    /\ processed t = processed t0 ++ visited
    /\ known (barrier_sps visited) (callee it)
    /\ known (barrier_sps visited) (caller it).

(** * Properties *)

(** ** Pure facts about the cursor *)

Lemma through_after (fs : list frame) :
  through_barrier fs ++ after_barrier fs = fs.
Proof.
  induction fs as [|f fs IH]; simpl; [reflexivity|].
  destruct (has_barrier f); simpl; [reflexivity | now rewrite IH].
Qed.

Lemma processed_app (t1 t2 : list event) :
  processed (t1 ++ t2) = processed t1 ++ processed t2.
Proof.
  induction t1 as [|e t1 IH]; simpl; [reflexivity|].
  destruct e; simpl; now rewrite ?IH.
Qed.

Lemma processed_process_events ctx fs :
  processed (process_events ctx fs) = fs.
Proof. induction fs as [|f fs IH]; simpl; [reflexivity | now rewrite IH]. Qed.

Lemma stores_app (t1 t2 : list event) :
  stores (t1 ++ t2) = stores t1 ++ stores t2.
Proof.
  induction t1 as [|e t1 IH]; simpl; [reflexivity|].
  destruct e; simpl; now rewrite ?IH.
Qed.

Lemma coherent_eq it :
  coherent it = true -> _is_done it = stream_is_done (_frame_stream it).
Proof. unfold coherent. apply eqb_prop. Qed.

Lemma coherent_cursor_at it :
  coherent it = true ->
  it = cursor_at (_caller it) (_callee it) (frames (_frame_stream it)).
Proof.
  intro H. apply coherent_eq in H. destruct it as [c e [fs] d].
  simpl in *. subst d. reflexivity.
Qed.

Lemma coherent_at c e fs : coherent (cursor_at c e fs) = true.
Proof. unfold coherent, cursor_at. simpl. apply eqb_reflx. Qed.

Lemma coherent_new j : coherent (new_StackWatermarkIterator j) = true.
Proof. apply (coherent_at 0 0 (stack j)). Qed.

Lemma coherent_next it : coherent (next it) = true.
Proof. unfold coherent, next. simpl. apply eqb_reflx. Qed.

Lemma has_next_frames it :
  coherent it = true ->
  has_next it = match frames (_frame_stream it) with
                | [] => false
                | _ :: _ => true
                end.
Proof.
  intro H. unfold has_next. rewrite (coherent_eq _ H).
  unfold stream_is_done. now destruct (frames (_frame_stream it)).
Qed.

Lemma next_at c e f fs : next (cursor_at c e (f :: fs)) = cursor_at c e fs.
Proof. reflexivity. Qed.

Lemma set_watermark_stream a it :
  _frame_stream (set_watermark a it) = _frame_stream it.
Proof.
  unfold set_watermark.
  destruct (negb (has_next it)), (_callee it =? 0), (_caller it =? 0);
    reflexivity.
Qed.

Lemma set_watermark_is_done a it :
  _is_done (set_watermark a it) = _is_done it.
Proof.
  unfold set_watermark.
  destruct (negb (has_next it)), (_callee it =? 0), (_caller it =? 0);
    reflexivity.
Qed.

Lemma coherent_set_watermark a it :
  coherent (set_watermark a it) = coherent it.
Proof.
  unfold coherent. now rewrite set_watermark_is_done, set_watermark_stream.
Qed.

Lemma visit_frames it f :
  frames (_frame_stream (visit it f)) = tl (frames (_frame_stream it)).
Proof.
  unfold visit. destruct (has_barrier f);
    now rewrite ?set_watermark_stream.
Qed.

Lemma coherent_visit it f : coherent (visit it f) = true.
Proof.
  unfold visit. destruct (has_barrier f);
    rewrite ?coherent_set_watermark; apply coherent_next.
Qed.

Lemma coherent_walk : forall vs it,
  coherent it = true -> coherent (walk vs it) = true.
Proof.
  induction vs as [|f vs IH]; intros it H; [exact H|].
  apply IH, coherent_visit.
Qed.

Lemma walk_frames_skipn : forall vs it,
  frames (_frame_stream (walk vs it))
  = skipn (List.length vs) (frames (_frame_stream it)).
Proof.
  induction vs as [|f vs IH]; intro it; [reflexivity|].
  unfold walk in *; simpl fold_left. rewrite IH, visit_frames.
  destruct (frames (_frame_stream it)); simpl; [now rewrite skipn_nil | reflexivity].
Qed.

Lemma walk_frames vs rest it :
  frames (_frame_stream it) = vs ++ rest ->
  frames (_frame_stream (walk vs it)) = rest.
Proof.
  intro H. rewrite walk_frames_skipn, H.
  rewrite skipn_app, skipn_all, Nat.sub_diag. reflexivity.
Qed.

Lemma last_cons_default {A} (x d : A) (l : list A) :
  last (x :: l) d = last l x.
Proof.
  revert x d; induction l as [|y l IH]; intros x d; [reflexivity|].
  change (last (x :: y :: l) d) with (last (y :: l) d).
  now rewrite !IH.
Qed.

Lemma walk_cons f vs it : walk (f :: vs) it = walk vs (visit it f).
Proof. reflexivity. Qed.

Lemma walk_app vs1 vs2 it : walk (vs1 ++ vs2) it = walk vs2 (walk vs1 it).
Proof. unfold walk. apply fold_left_app. Qed.

Lemma visit_barrier it f :
  has_barrier f = true -> visit it f = set_watermark (sp f) (next it).
Proof. unfold visit. now intros ->. Qed.

Lemma visit_plain it f : has_barrier f = false -> visit it f = next it.
Proof. unfold visit. now intros ->. Qed.

Lemma advance_unfold : forall fs a c e,
  set_watermark (last (map sp (through_barrier fs)) a)
                (cursor_at c e (after_barrier fs))
  = walk (through_barrier fs) (cursor_at c e fs).
Proof.
  induction fs as [|f fs IH]; intros a c e; [reflexivity|].
  simpl through_barrier; simpl after_barrier.
  destruct (has_barrier f) eqn:Hb.
  - unfold walk; simpl. now rewrite visit_barrier.
  - simpl map. rewrite last_cons_default, IH, walk_cons.
    now rewrite visit_plain.
Qed.

Lemma set_watermark_caller_cases a it :
  caller (set_watermark a it) = caller it \/ caller (set_watermark a it) = a.
Proof.
  unfold set_watermark, caller.
  destruct (negb (has_next it)), (_callee it =? 0), (_caller it =? 0);
    simpl; auto.
Qed.

Lemma set_watermark_callee_nonzero a it :
  a <> 0 -> has_next it = true -> callee (set_watermark a it) <> 0.
Proof.
  intros Ha Hn. unfold set_watermark, callee. rewrite Hn; simpl.
  destruct (_callee it =? 0) eqn:He; simpl; [exact Ha|].
  destruct (_caller it =? 0) eqn:Hc; simpl.
  - now apply N.eqb_neq.
  - now apply N.eqb_neq.
Qed.

Lemma has_next_set_watermark a it :
  has_next (set_watermark a it) = has_next it.
Proof. unfold has_next. now rewrite set_watermark_is_done. Qed.

Lemma visit_barrier_sane it f :
  has_barrier f = true -> sp f <> 0 ->
  has_next (visit it f) = true -> callee (visit it f) <> 0.
Proof.
  intros Hb Hz. rewrite (visit_barrier _ _ Hb), has_next_set_watermark.
  now apply set_watermark_callee_nonzero.
Qed.

Lemma visit_caller_cases it f :
  caller (visit it f) = caller it \/ caller (visit it f) = sp f.
Proof.
  unfold visit. destruct (has_barrier f); [|now left].
  destruct (set_watermark_caller_cases (sp f) (next it)); auto.
Qed.

Lemma visit_ok it f rest :
  frames (_frame_stream it) = f :: rest ->
  cursor_ok it = true -> cursor_ok (visit it f) = true.
Proof.
  unfold cursor_ok, caller_below. intros Hfs.
  rewrite visit_frames, Hfs. simpl.
  rewrite !andb_true_iff.
  intros [[[Hz Hnz] [Hle Hasc]] [Hcf Hc]].
  repeat split; auto.
  destruct (visit_caller_cases it f) as [-> | ->]; auto.
Qed.

Lemma walk_ok : forall vs rest it,
  frames (_frame_stream it) = vs ++ rest ->
  cursor_ok it = true -> cursor_ok (walk vs it) = true.
Proof.
  induction vs as [|f vs IH]; intros rest it Hfs Hok; [exact Hok|].
  rewrite walk_cons. apply (IH rest).
  - rewrite visit_frames, Hfs. reflexivity.
  - eapply visit_ok; eauto.
Qed.

Lemma advance_frames it :
  frames (_frame_stream (advance it))
  = after_barrier (frames (_frame_stream it)).
Proof.
  unfold advance. apply walk_frames. symmetry. apply through_after.
Qed.

Lemma advance_ok it : cursor_ok it = true -> cursor_ok (advance it) = true.
Proof.
  unfold advance. apply walk_ok with (rest := after_barrier (frames (_frame_stream it))).
  symmetry. apply through_after.
Qed.

Lemma drain_frames it : frames (_frame_stream (drain it)) = [].
Proof.
  unfold drain. apply walk_frames. now rewrite app_nil_r.
Qed.

Lemma nonzero_after_barrier fs :
  nonzero_sps fs = true -> nonzero_sps (after_barrier fs) = true.
Proof.
  induction fs as [|f fs IH]; simpl; [auto|].
  rewrite andb_true_iff. intros [_ H]. destruct (has_barrier f); auto.
Qed.

(** A step that leaves frames behind ended on a barrier frame. *)
Lemma through_barrier_last fs :
  after_barrier fs <> [] ->
  exists vs b, through_barrier fs = vs ++ [b] /\ has_barrier b = true /\ In b fs.
Proof.
  induction fs as [|f fs IH]; simpl; [congruence|].
  destruct (has_barrier f) eqn:Hb; intro Hne.
  - exists [], f. auto.
  - destruct (IH Hne) as (vs & b & -> & Hbb & Hin).
    exists (f :: vs), b. auto.
Qed.

Lemma coherent_advance it : coherent it = true -> coherent (advance it) = true.
Proof. apply coherent_walk. Qed.

Lemma coherent_drain it : coherent it = true -> coherent (drain it) = true.
Proof. apply coherent_walk. Qed.

Lemma advance_sane it :
  coherent it = true ->
  nonzero_sps (frames (_frame_stream it)) = true ->
  has_next (advance it) = true -> callee (advance it) <> 0.
Proof.
  intros Hco Hnz Hn.
  assert (Hne : after_barrier (frames (_frame_stream it)) <> []).
  { rewrite has_next_frames, advance_frames in Hn
      by now apply coherent_advance.
    destruct (after_barrier _); [discriminate | congruence]. }
  destruct (through_barrier_last _ Hne) as (vs & b & Hvs & Hb & Hin).
  unfold advance in *. rewrite Hvs, walk_app in *.
  change (walk [b] (walk vs it)) with (visit (walk vs it) b) in *.
  apply visit_barrier_sane; auto.
  unfold nonzero_sps in Hnz. rewrite forallb_forall in Hnz.
  specialize (Hnz b Hin). now apply N.eqb_neq, negb_true_iff.
Qed.

Lemma through_after_n : forall n fs,
  through_barriers n fs ++ after_barriers n fs = fs.
Proof.
  induction n as [|n IH]; intro fs; simpl; [reflexivity|].
  now rewrite <- app_assoc, IH, through_after.
Qed.

Lemma cursor_ok_new j :
  nonzero_sps (stack j) && ascending (stack j) = true ->
  cursor_ok (new_StackWatermarkIterator j) = true.
Proof.
  unfold cursor_ok, caller_below. simpl. intros ->. simpl.
  apply forallb_forall. intros f _. apply N.leb_le. lia.
Qed.

Lemma bootstrap_ok j :
  nonzero_sps (stack j) && ascending (stack j) = true ->
  cursor_ok (bootstrap j) = true.
Proof.
  intro H. unfold bootstrap. now do 3 apply advance_ok; apply cursor_ok_new.
Qed.

Lemma has_next_drain it : coherent it = true -> has_next (drain it) = false.
Proof.
  intro H. rewrite has_next_frames by now apply coherent_drain.
  now rewrite drain_frames.
Qed.

Lemma published_drain it g :
  coherent it = true -> published (Some (drain it)) g = (0, create g true).
Proof. intro H. unfold published. now rewrite has_next_drain. Qed.

(** ** Pacing of a drain *)

Lemma current_frames it f :
  current it = Some f ->
  frames (_frame_stream it) = f :: frames (_frame_stream (visit it f)).
Proof.
  unfold current, stream_current. rewrite visit_frames.
  destruct (frames (_frame_stream it)); simpl; [discriminate|].
  now intros [= ->].
Qed.

Lemma barrier_count_cons f fs :
  barrier_count (f :: fs)
  = (if has_barrier f then 1 else 0) + barrier_count fs.
Proof.
  unfold barrier_count. simpl filter. destruct (has_barrier f).
  - cbn [List.length]. rewrite Nat2N.inj_succ. lia.
  - lia.
Qed.

Lemma paced_runs ctx g i it tr :
  paced ctx g i it tr -> i < frames_per_poll_gc ->
  Forall (fun n => n <= frames_per_poll_gc) (barrier_runs i tr).
Proof.
  unfold frames_per_poll_gc.
  induction 1 as [i it Hn | i it f tr Hc Hb Hp IH | i it f tr Hc Hb Hi Hp IH
                  | i it f tr Hc Hb Hi Hp IH]; intro Hlt; simpl.
  - constructor; [lia | constructor].
  - rewrite Hb. auto.
  - rewrite Hb. apply IH. unfold frames_per_poll_gc in Hi. lia.
  - rewrite Hb. unfold frames_per_poll_gc in Hi.
    constructor; [lia|]. apply IH. lia.
Qed.

Lemma paced_yields ctx g i it tr :
  paced ctx g i it tr -> coherent it = true -> i < frames_per_poll_gc ->
  yields tr
  = (i + barrier_count (frames (_frame_stream it))) / frames_per_poll_gc.
Proof.
  unfold frames_per_poll_gc.
  induction 1 as [i it Hn | i it f tr Hc Hb Hp IH | i it f tr Hc Hb Hi Hp IH
                  | i it f tr Hc Hb Hi Hp IH]; intros Hco Hlt; simpl.
  - rewrite has_next_frames in Hn by exact Hco.
    destruct (frames (_frame_stream it)); [|discriminate].
    unfold barrier_count. simpl. rewrite N.add_0_r.
    symmetry. now apply N.div_small.
  - rewrite (current_frames _ _ Hc), barrier_count_cons, Hb. simpl.
    apply IH; [apply coherent_visit | exact Hlt].
  - rewrite (current_frames _ _ Hc), barrier_count_cons, Hb.
    unfold frames_per_poll_gc in Hi.
    rewrite IH by (try apply coherent_visit; lia). f_equal. lia.
  - rewrite (current_frames _ _ Hc), barrier_count_cons, Hb.
    unfold frames_per_poll_gc in Hi.
    rewrite IH by (try apply coherent_visit; lia).
    replace (i + (1 + barrier_count (frames (_frame_stream (visit it f)))))
      with (1 * 5 + barrier_count (frames (_frame_stream (visit it f))))
      by lia.
    rewrite N.div_add_l by lia. simpl. lia.
Qed.

(** ** The two-slot ring *)

Lemma ring_from_snoc : forall l n p a,
  ring_from n p (l ++ [a])
  = fold_nth (n + List.length l) (ring_from n p l) a.
Proof.
  induction l as [|x l IH]; intros n p a; simpl.
  - now rewrite Nat.add_0_r.
  - rewrite IH. f_equal. lia.
Qed.

Lemma ring_snoc l a :
  ring (l ++ [a]) = fold_nth (List.length l) (ring l) a.
Proof. unfold ring. now rewrite ring_from_snoc. Qed.

Lemma ring_shape l :
  Forall (fun a => a <> 0) l ->
  match List.length l with
  | O => ring l = (0, 0)
  | S O => fst (ring l) <> 0 /\ snd (ring l) = 0
  | _ => fst (ring l) <> 0 /\ snd (ring l) <> 0
  end.
Proof.
  induction l as [|a l IH] using rev_ind; intro Hnz; [reflexivity|].
  apply Forall_app in Hnz. destruct Hnz as [Hl Ha].
  inversion Ha as [|? ? Ha0 _]; subst.
  specialize (IH Hl). rewrite ring_snoc, length_app. simpl.
  rewrite Nat.add_1_r. unfold uintptr_t in *.
  destruct (List.length l) as [|[|n]]; simpl.
  - rewrite IH. simpl. auto.
  - destruct IH. auto.
  - destruct IH. auto.
Qed.

Lemma set_watermark_ring a it l :
  a <> 0 -> Forall (fun x => x <> 0) l ->
  has_next it = true ->
  boundaries it = ring l ->
  boundaries (set_watermark a it) = ring (l ++ [a]).
Proof.
  intros Ha Hl Hn Hb. rewrite ring_snoc.
  pose proof (ring_shape l Hl) as Hs.
  unfold boundaries, callee, caller in *. unfold set_watermark.
  rewrite Hn. simpl. unfold uintptr_t in *.
  destruct (List.length l) as [|[|n]]; rewrite <- Hb in *; simpl in *.
  - injection Hs as -> ->. reflexivity.
  - destruct Hs as [He Hc]. rewrite Hc.
    apply N.eqb_neq in He. now rewrite He.
  - destruct Hs as [He Hc].
    apply N.eqb_neq in He, Hc. now rewrite He, Hc.
Qed.

Lemma nonzero_sps_Forall fs :
  nonzero_sps fs = true ->
  Forall (fun a => a <> 0) (map sp (filter has_barrier fs)).
Proof.
  unfold nonzero_sps. rewrite forallb_forall. intro H.
  apply Forall_forall. intros a Ha.
  apply in_map_iff in Ha. destruct Ha as (f & <- & Hf).
  apply filter_In in Hf. destruct Hf as [Hf _].
  apply N.eqb_neq, negb_true_iff. auto.
Qed.

Lemma nonzero_sps_app fs1 fs2 :
  nonzero_sps (fs1 ++ fs2) = nonzero_sps fs1 && nonzero_sps fs2.
Proof. unfold nonzero_sps. apply forallb_app. Qed.

Lemma ring_inv_new fs : ring_inv fs (new_StackWatermarkIterator (Thread fs)).
Proof.
  exists []. split; [reflexivity|].
  unfold folded. simpl. destruct fs; reflexivity.
Qed.

Lemma ring_inv_visit fs it f :
  nonzero_sps fs = true ->
  current it = Some f ->
  ring_inv fs it -> ring_inv fs (visit it f).
Proof.
  intros Hnz Hcur (visited & Hfs & Hb).
  unfold current, stream_current in Hcur.
  destruct (frames (_frame_stream it)) as [|f' rest] eqn:Hfr; [discriminate|].
  injection Hcur as ->.
  exists (visited ++ [f]). rewrite visit_frames, Hfr. simpl tl.
  split; [now rewrite <- app_assoc|].
  assert (Hv : nonzero_sps visited = true /\ sp f <> 0).
  { rewrite Hfs, nonzero_sps_app in Hnz. simpl in Hnz.
    rewrite !andb_true_iff in Hnz. destruct Hnz as (? & Hf & _).
    split; [assumption|]. now apply N.eqb_neq, negb_true_iff. }
  destruct Hv as [Hvnz Hfz].
  assert (Hnext : has_next (next it)
                  = match rest with [] => false | _ :: _ => true end).
  { unfold has_next, stream_is_done, next, stream_next. simpl.
    rewrite Hfr. simpl. destruct rest; reflexivity. }
  unfold folded in *.
  destruct rest as [|r rest'].
  - rewrite removelast_last.
    unfold visit. destruct (has_barrier f); [|exact Hb].
    unfold set_watermark. rewrite Hnext. simpl. exact Hb.
  - rewrite filter_app, map_app. simpl.
    unfold visit. destruct (has_barrier f); simpl.
    + apply set_watermark_ring; auto.
      now apply nonzero_sps_Forall.
    + now rewrite app_nil_r.
Qed.

Lemma ring_inv_walk fs : forall vs rest it,
  nonzero_sps fs = true ->
  frames (_frame_stream it) = vs ++ rest ->
  ring_inv fs it -> ring_inv fs (walk vs it).
Proof.
  induction vs as [|f vs IH]; intros rest it Hnz Hfr Hinv; [exact Hinv|].
  rewrite walk_cons. apply (IH rest); auto.
  - rewrite visit_frames, Hfr. reflexivity.
  - apply ring_inv_visit; auto.
    unfold current, stream_current. now rewrite Hfr.
Qed.

(** ** The member functions, computed *)

Ltac run_monad :=
  unfold MutexLocker, MutexUnlocker, lock, unlock, should_start_iteration,
    frames_left, current_frame, call, this, emit, modify, get, ret, bind,
    fatal,
    with_wm, with_event, put_iterator, put_lock, put_state, put_watermark;
  simpl.

Section Computed.

Variable ASSERT : bool.

Lemma process_one_loop_eq : forall fs fuel ctx a s k c e l j g t,
  (List.length fs < fuel)%nat ->
  process_one_loop fuel ctx a
    (MkWorld (Controller s k (Some (cursor_at c e fs)) l) j g t)
  = Ok (last (map sp (through_barrier fs)) a)
       (MkWorld (Controller s k
                   (Some (cursor_at c e (after_barrier fs))) l)
                j g (t ++ process_events ctx (through_barrier fs))).
Proof.
  induction fs as [|f fs IH]; intros fuel ctx a s k c e l j g t Hfuel;
    destruct fuel as [|fuel]; simpl in Hfuel; try lia.
  - simpl. run_monad. now rewrite app_nil_r.
  - simpl process_one_loop. run_monad.
    destruct (has_barrier f) eqn:Hb.
    + reflexivity.
    + rewrite next_at, IH by lia. simpl.
      rewrite <- (last_cons_default (sp f) a), <- app_assoc. reflexivity.
Qed.

Lemma iterator_process_one_eq ctx s k it l j g t :
  coherent it = true ->
  iterator_process_one ctx (MkWorld (Controller s k (Some it) l) j g t)
  = Ok tt (MkWorld (Controller s k (Some (advance it)) l) j g
             (t ++ process_events ctx
                     (through_barrier (frames (_frame_stream it))))).
Proof.
  intro Hco. rewrite (coherent_cursor_at it Hco).
  generalize (_caller it) (_callee it) (frames (_frame_stream it)).
  intros c e fs.
  cbv beta iota delta [iterator_process_one frames_left this get ret bind
                       wm _iterator _frame_stream frames cursor_at].
  fold (cursor_at c e fs).
  rewrite process_one_loop_eq by lia.
  run_monad. unfold advance. simpl.
  now rewrite advance_unfold.
Qed.

Lemma vmassert_holds c msg w :
  (ASSERT = true -> c = true) -> vmassert ASSERT c msg w = Ok tt w.
Proof.
  intro H. unfold vmassert. destruct ASSERT; simpl; [|reflexivity].
  now rewrite H.
Qed.

Lemma vmassert_fires c msg w :
  ASSERT = true -> c = false -> vmassert ASSERT c msg w = Fatal msg.
Proof. intros -> ->. reflexivity. Qed.

Lemma update_watermark_eq s k oit l j g t :
  (ASSERT = true ->
   l = true /\
   forall it, oit = Some it -> has_next it = true -> callee it <> 0) ->
  update_watermark ASSERT (MkWorld (Controller s k oit l) j g t)
  = Ok tt (MkWorld (Controller (snd (published oit g))
                               (fst (published oit g)) oit l)
             j g (t ++ [EvStoreWatermark (fst (published oit g));
                        EvStoreState (snd (published oit g))])).
Proof.
  intro Hpre. unfold update_watermark, published.
  unfold bind at 1, get. unfold bind at 1.
  rewrite vmassert_holds by (intro HA; apply Hpre, HA). simpl.
  destruct oit as [it|]; simpl.
  - destruct (has_next it) eqn:Hn; simpl.
    + unfold bind at 1.
      rewrite vmassert_holds.
      * run_monad. now rewrite <- app_assoc.
      * intro HA. apply negb_true_iff, N.eqb_neq.
        now apply (proj2 (Hpre HA) it).
    + run_monad. now rewrite <- app_assoc.
  - run_monad. now rewrite <- app_assoc.
Qed.

Lemma process_all_loop_paced : forall fs fuel ctx i s k it j g t,
  frames (_frame_stream it) = fs ->
  coherent it = true ->
  (List.length fs < fuel)%nat ->
  (ASSERT = true -> cursor_ok it = true) ->
  exists s' k' t',
    process_all_loop ASSERT fuel ctx i
      (MkWorld (Controller s k (Some it) true) j g t)
    = Ok tt (MkWorld (Controller s' k' (Some (drain it)) true) j g (t ++ t'))
    /\ processed t' = fs
    /\ paced ctx g i it t'.
Proof.
  induction fs as [|f fs IH];
    intros fuel ctx i s k it j g t Hfs Hco Hfuel Hok;
    destruct fuel as [|fuel]; simpl in Hfuel; try lia;
    pose proof (has_next_frames it Hco) as Hnext; rewrite Hfs in Hnext.
  - exists s, k, []. simpl. run_monad. rewrite Hnext.
    unfold drain, walk. rewrite Hfs, app_nil_r. simpl.
    repeat split. constructor. exact Hnext.
  - assert (Hcur : current it = Some f)
      by (unfold current, stream_current; now rewrite Hfs).
    assert (Hco' : coherent (visit it f) = true) by apply coherent_visit.
    assert (Hdrain : drain it = drain (visit it f)).
    { unfold drain. rewrite Hfs, visit_frames, Hfs. reflexivity. }
    assert (Hfs' : frames (_frame_stream (visit it f)) = fs)
      by (now rewrite visit_frames, Hfs).
    assert (Hok' : ASSERT = true -> cursor_ok (visit it f) = true)
      by (intro HA; eapply visit_ok; eauto).
    simpl process_all_loop. unfold bind at 1, this, get, ret, bind at 1.
    simpl. rewrite Hnext.
    unfold bind at 1, current_frame, this, get, ret, bind at 1.
    simpl. rewrite Hcur.
    unfold bind at 1. rewrite vmassert_holds.
    2:{ intro HA. specialize (Hok HA). unfold cursor_ok, caller_below in Hok.
        rewrite Hfs in Hok. simpl in Hok. rewrite !andb_true_iff in Hok.
        tauto. }
    run_monad. rewrite Hdrain.
    destruct (has_barrier f) eqn:Hb.
    + destruct (i + 1 =? frames_per_poll_gc) eqn:Hi; simpl.
      * rewrite <- (visit_barrier it f Hb).
        rewrite update_watermark_eq.
        2:{ intro HA. split; [reflexivity|]. intros it' [= <-].
            apply visit_barrier_sane; auto.
            specialize (Hok HA). unfold cursor_ok, nonzero_sps in Hok.
            rewrite Hfs in Hok. simpl in Hok. rewrite !andb_true_iff in Hok.
            apply N.eqb_neq, negb_true_iff. tauto. }
        simpl.
        destruct (IH fuel ctx 0
                    (snd (published (Some (visit it f)) g))
                    (fst (published (Some (visit it f)) g))
                    (visit it f) j g
                    ((((t ++ [EvProcess f ctx]) ++
                       [EvStoreWatermark (fst (published (Some (visit it f)) g));
                        EvStoreState (snd (published (Some (visit it f)) g))])
                      ++ [EvUnlock]) ++ [EvLock])
                    Hfs' Hco' ltac:(lia) Hok')
          as (s' & k' & t' & Heq & Hp & Hpaced).
        rewrite Heq.
        eexists s', k', _. split; [|split].
        -- rewrite <- !app_assoc. simpl. reflexivity.
        -- simpl. now rewrite Hp.
        -- apply paced_yield; auto. now apply N.eqb_eq.
      * rewrite <- (visit_barrier it f Hb).
        destruct (IH fuel ctx (i + 1) s k (visit it f) j g
                    (t ++ [EvProcess f ctx]) Hfs' Hco' ltac:(lia) Hok')
          as (s' & k' & t' & Heq & Hp & Hpaced).
        rewrite Heq.
        eexists s', k', _. split; [|split].
        -- rewrite <- !app_assoc. simpl. reflexivity.
        -- simpl. now rewrite Hp.
        -- apply paced_count; auto. now apply N.eqb_neq.
    + rewrite <- (visit_plain it f Hb).
      destruct (IH fuel ctx i s k (visit it f) j g
                  (t ++ [EvProcess f ctx]) Hfs' Hco' ltac:(lia) Hok')
        as (s' & k' & t' & Heq & Hp & Hpaced).
      rewrite Heq.
      eexists s', k', _. split; [|split].
      -- rewrite <- !app_assoc. simpl. reflexivity.
      -- simpl. now rewrite Hp.
      -- apply paced_plain; auto.
Qed.

Lemma bootstrap_frames j :
  frames (_frame_stream (bootstrap j)) = after_barriers 3 (stack j).
Proof. unfold bootstrap. now rewrite !advance_frames. Qed.

Lemma bootstrap_sane j :
  nonzero_sps (stack j) = true ->
  has_next (bootstrap j) = true -> callee (bootstrap j) <> 0.
Proof.
  intro Hnz. unfold bootstrap. apply advance_sane.
  - do 2 apply coherent_advance. apply coherent_new.
  - rewrite !advance_frames. simpl. now do 2 apply nonzero_after_barrier.
Qed.

Lemma coherent_bootstrap j : coherent (bootstrap j) = true.
Proof. unfold bootstrap. do 3 apply coherent_advance. apply coherent_new. Qed.

Lemma start_iteration_impl_eq ctx s k oit l j g t :
  (ASSERT = true -> l = true /\ nonzero_sps (stack j) = true) ->
  start_iteration_impl ASSERT ctx (MkWorld (Controller s k oit l) j g t)
  = Ok tt (MkWorld (Controller (snd (published (started j) g))
                               (fst (published (started j) g))
                               (started j) l)
             j g
             (t ++ process_events ctx (through_barriers 3 (stack j))
                ++ [EvStoreWatermark (fst (published (started j) g));
                    EvStoreState (snd (published (started j) g))])).
Proof.
  intro Hpre. unfold start_iteration_impl, started.
  unfold bind at 1, get. unfold bind at 1.
  cbv beta iota delta [jt].
  destruct (has_last_Java_frame j) eqn:Hj.
  - unfold bind at 1, modify, with_wm, put_iterator. simpl.
    unfold bind at 1.
    rewrite iterator_process_one_eq by apply coherent_new.
    unfold bind at 1.
    rewrite iterator_process_one_eq
      by (apply coherent_advance, coherent_new).
    rewrite iterator_process_one_eq
      by (do 2 apply coherent_advance; apply coherent_new).
    rewrite update_watermark_eq.
    + fold (bootstrap j). rewrite !advance_frames. simpl.
      unfold process_events. rewrite !map_app, app_nil_r, <- !app_assoc.
      reflexivity.
    + intro HA. destruct (Hpre HA) as [Hl Hnz]. split; [exact Hl|].
      intros it [= <-]. now apply bootstrap_sane.
  - unfold modify, with_wm, put_iterator. simpl.
    rewrite update_watermark_eq.
    + unfold has_last_Java_frame in Hj.
      destruct (stack j); [|discriminate]. simpl.
      reflexivity.
    + intro HA. split; [apply Hpre, HA | discriminate].
Qed.

Lemma process_one_stale_eq s k oit l j g t :
  (epoch s =? g) = false ->
  (ASSERT = true -> nonzero_sps (stack j) = true) ->
  process_one ASSERT (MkWorld (Controller s k oit l) j g t)
  = Ok tt (MkWorld (Controller (snd (published (started j) g))
                               (fst (published (started j) g))
                               (started j) false)
             j g
             (t ++ [EvLock]
                ++ process_events NULL (through_barriers 3 (stack j))
                ++ [EvStoreWatermark (fst (published (started j) g));
                    EvStoreState (snd (published (started j) g));
                    EvUnlock])).
Proof.
  intros Hst Hpre. unfold process_one. run_monad. rewrite Hst. simpl.
  rewrite start_iteration_impl_eq by auto. simpl.
  rewrite <- !app_assoc. reflexivity.
Qed.

Lemma process_one_active_eq s k it l j g t :
  (epoch s =? g) = true ->
  coherent it = true ->
  (ASSERT = true -> nonzero_sps (frames (_frame_stream it)) = true) ->
  process_one ASSERT (MkWorld (Controller s k (Some it) l) j g t)
  = Ok tt (MkWorld (Controller (snd (published (Some (advance it)) g))
                               (fst (published (Some (advance it)) g))
                               (Some (advance it)) false)
             j g
             (t ++ [EvLock]
                ++ process_events NULL
                     (through_barrier (frames (_frame_stream it)))
                ++ [EvStoreWatermark (fst (published (Some (advance it)) g));
                    EvStoreState (snd (published (Some (advance it)) g));
                    EvUnlock])).
Proof.
  intros Hst Hco Hpre. unfold process_one. run_monad. rewrite Hst. simpl.
  rewrite iterator_process_one_eq by exact Hco.
  rewrite update_watermark_eq.
  - simpl. rewrite <- !app_assoc. reflexivity.
  - intro HA. split; [reflexivity|]. intros it' [= <-].
    apply advance_sane; auto.
Qed.

Lemma process_one_idle_eq s k l j g t :
  (epoch s =? g) = true ->
  process_one ASSERT (MkWorld (Controller s k None l) j g t)
  = Ok tt (MkWorld (Controller s k None false) j g
             (t ++ [EvLock; EvUnlock])).
Proof.
  intros Hst. unfold process_one. run_monad. rewrite Hst. simpl.
  rewrite <- !app_assoc. reflexivity.
Qed.

Lemma start_iteration_stale_eq s k oit l j g t :
  (epoch s =? g) = false ->
  (ASSERT = true -> nonzero_sps (stack j) = true) ->
  start_iteration ASSERT (MkWorld (Controller s k oit l) j g t)
  = Ok tt (MkWorld (Controller (snd (published (started j) g))
                               (fst (published (started j) g))
                               (started j) false)
             j g
             (t ++ [EvLock]
                ++ process_events NULL (through_barriers 3 (stack j))
                ++ [EvStoreWatermark (fst (published (started j) g));
                    EvStoreState (snd (published (started j) g));
                    EvUnlock])).
Proof.
  intros Hst Hpre. unfold start_iteration, should_start_iteration_acquire.
  run_monad. rewrite Hst. simpl. rewrite Hst. simpl.
  rewrite start_iteration_impl_eq by auto. simpl.
  rewrite <- !app_assoc. reflexivity.
Qed.

Lemma start_iteration_current_eq w :
  stale w = false -> start_iteration ASSERT w = Ok tt w.
Proof.
  unfold stale. intros Hst%negb_false_iff.
  unfold start_iteration, should_start_iteration_acquire.
  run_monad. now rewrite Hst.
Qed.

Lemma is_frame_safe_eq (sender : frame -> frame) fr s k oit l j g t :
  is_frame_safe sender fr (MkWorld (Controller s k oit l) j g t)
  = Ok (if negb (epoch s =? g) then false
        else if is_done s then true
        else match oit with
             | Some it =>
               sp (if is_safepoint_blob_frame fr then sender fr else fr)
               <? caller it
             | None => true
             end)
       (MkWorld (Controller s k oit false) j g (t ++ [EvLock; EvUnlock])).
Proof.
  unfold is_frame_safe. run_monad.
  destruct (epoch s =? g); simpl;
    [destruct (is_done s); simpl; [|destruct oit; simpl]|];
    rewrite <- !app_assoc; reflexivity.
Qed.

Lemma last_processed_eq s k oit l j g t :
  exists a,
    last_processed (MkWorld (Controller s k oit l) j g t)
    = Ok a (MkWorld (Controller s k oit false) j g (t ++ [EvLock; EvUnlock])).
Proof.
  unfold last_processed, watermark. run_monad.
  destruct (epoch s =? g); simpl;
    [destruct (k =? 0); simpl; [|destruct oit; simpl]|];
    rewrite <- !app_assoc; eexists; reflexivity.
Qed.

Lemma iterator_process_all_paced ctx s k it j g t :
  coherent it = true ->
  (ASSERT = true -> cursor_ok it = true) ->
  exists s' k' t',
    iterator_process_all ASSERT ctx
      (MkWorld (Controller s k (Some it) true) j g t)
    = Ok tt (MkWorld (Controller s' k' (Some (drain it)) true) j g (t ++ t'))
    /\ processed t' = frames (_frame_stream it)
    /\ paced ctx g 0 it t'.
Proof.
  intros Hco Hok.
  cbv beta iota delta [iterator_process_all frames_left this get ret bind
                       wm _iterator].
  apply process_all_loop_paced; auto.
Qed.

Lemma finish_iteration_eq ctx s k oit l j g t :
  ((epoch s =? g) = true -> forall it, oit = Some it -> coherent it = true) ->
  (ASSERT = true ->
   if epoch s =? g
   then forall it, oit = Some it -> cursor_ok it = true
   else nonzero_sps (stack j) && ascending (stack j) = true) ->
  exists t',
    finish_iteration ASSERT ctx (MkWorld (Controller s k oit l) j g t)
    = Ok tt (MkWorld (Controller (create g true) 0
                        (option_map drain (forced_cursor s oit j g)) false)
               j g
               (t ++ [EvLock] ++ forced_start ctx s j g ++ t'
                  ++ [EvStoreWatermark 0; EvStoreState (create g true);
                      EvUnlock]))
    /\ processed t' = frames_of (forced_cursor s oit j g)
    /\ (forall it, forced_cursor s oit j g = Some it -> paced ctx g 0 it t')
    /\ (forced_cursor s oit j g = None -> t' = []).
Proof.
  intros Hcoh Hpre. unfold finish_iteration, forced_cursor, forced_start.
  run_monad.
  assert (Htail : forall s0 k0 o t0,
    (forall it, o = Some it -> coherent it = true) ->
    (ASSERT = true -> forall it, o = Some it -> cursor_ok it = true) ->
    exists t',
      match
        match
          match o with
          | Some _ => iterator_process_all ASSERT ctx
          | None => fun w => Ok tt w
          end (MkWorld (Controller s0 k0 o true) j g t0)
        with
        | Ok _ w' => update_watermark ASSERT w'
        | Fatal msg => Fatal msg
        end
      with
      | Ok a w' =>
          Ok a (MkWorld (Controller (_state (wm w')) (_watermark (wm w'))
                            (_iterator (wm w')) false)
                   (jt w') (epoch_id w') (trace w' ++ [EvUnlock]))
      | Fatal msg => Fatal msg
      end
      = Ok tt (MkWorld (Controller (create g true) 0 (option_map drain o) false)
                 j g (t0 ++ t' ++ [EvStoreWatermark 0;
                                   EvStoreState (create g true); EvUnlock]))
      /\ processed t' = frames_of o
      /\ (forall it, o = Some it -> paced ctx g 0 it t')
      /\ (o = None -> t' = [])).
  { intros s0 k0 o t0 Hco Hok. destruct o as [it|].
    - specialize (Hco it eq_refl).
      destruct (iterator_process_all_paced ctx s0 k0 it j g t0)
        as (s' & k' & t' & Heq & Hp & Hpaced); [exact Hco | now auto|].
      rewrite Heq. rewrite update_watermark_eq.
      + rewrite published_drain by exact Hco. simpl. exists t'.
        rewrite <- !app_assoc. simpl. repeat split; auto.
        * now intros it' [= <-].
        * discriminate.
      + intros _. split; [reflexivity|]. intros it' [= <-].
        now rewrite has_next_drain.
    - rewrite update_watermark_eq.
      + exists []. unfold published. simpl. rewrite <- !app_assoc. simpl.
        repeat split; auto. discriminate.
      + intros _. split; [reflexivity | discriminate]. }
  destruct (epoch s =? g) eqn:Hst; simpl.
  - destruct (Htail s k oit (t ++ [EvLock])) as (t' & Heq & Hrest);
      [now apply Hcoh | exact Hpre|].
    exists t'. split; [|exact Hrest].
    rewrite Heq, <- !app_assoc. reflexivity.
  - rewrite start_iteration_impl_eq.
    2:{ intro HA. specialize (Hpre HA). apply andb_true_iff in Hpre.
        tauto. }
    simpl.
    destruct (Htail (snd (published (started j) g))
                    (fst (published (started j) g)) (started j)
                    ((t ++ [EvLock]) ++
                     process_events ctx (through_barriers 3 (stack j)) ++
                     [EvStoreWatermark (fst (published (started j) g));
                      EvStoreState (snd (published (started j) g))]))
      as (t' & Heq & Hrest).
    { intros it Hit. unfold started in Hit.
      destruct (has_last_Java_frame j); [|discriminate].
      injection Hit as <-. apply coherent_bootstrap. }
    { intros HA it Hit. unfold started in Hit.
      destruct (has_last_Java_frame j); [|discriminate].
      injection Hit as <-. apply bootstrap_ok; auto. }
    exists t'. split; [|exact Hrest].
    etransitivity; [exact Heq|].
    rewrite <- !app_assoc. reflexivity.
Qed.

Lemma process_all_violation ctx s k it f l j g t :
  ASSERT = true ->
  has_next it = true ->
  current it = Some f -> sp f < caller it ->
  iterator_process_all ASSERT ctx
    (MkWorld (Controller s k (Some it) l) j g t)
  = Fatal "invariant".
Proof.
  intros HA Hn Hcur Hlt.
  cbv beta iota delta [iterator_process_all frames_left this get ret bind
                       wm _iterator].
  cbn [process_all_loop]. unfold bind at 1, this, get, ret, bind at 1.
  simpl. rewrite Hn.
  unfold bind at 1, current_frame, this, get, ret, bind at 1.
  simpl. rewrite Hcur. unfold bind at 1.
  rewrite vmassert_fires; auto.
  now apply N.leb_gt.
Qed.



Lemma nonzero_sps_app_l vs fs :
  nonzero_sps (vs ++ fs) = true -> nonzero_sps vs = true.
Proof.
  unfold nonzero_sps. rewrite forallb_app, andb_true_iff. tauto.
Qed.





Lemma drain_ok it : cursor_ok it = true -> cursor_ok (drain it) = true.
Proof.
  unfold drain. apply walk_ok with (rest := []). now rewrite app_nil_r.
Qed.

Lemma cursor_run_ring fs : forall cs s k it j g t,
  nonzero_sps fs = true ->
  coherent it = true ->
  (ASSERT = true -> cursor_ok it = true) ->
  ring_inv fs it ->
  exists s' k' t' it',
    cursor_run ASSERT cs (MkWorld (Controller s k (Some it) true) j g t)
    = Ok tt (MkWorld (Controller s' k' (Some it') true) j g t')
    /\ ring_inv fs it'.
Proof.
  induction cs as [|c cs IH]; intros s k it j g t Hnz Hco Hok Hinv.
  - exists s, k, t, it. split; [reflexivity | exact Hinv].
  - destruct c as [ctx|ctx]; cbn [cursor_run cursor_step]; unfold bind at 1.
    + rewrite iterator_process_one_eq by exact Hco.
      apply IH; auto.
      * now apply coherent_advance.
      * intro HA. apply advance_ok; auto.
      * unfold advance.
        apply ring_inv_walk
          with (rest := after_barrier (frames (_frame_stream it))); auto.
        symmetry. apply through_after.
    + destruct (iterator_process_all_paced ctx s k it j g t Hco Hok)
        as (s' & k' & t' & Heq & _ & _).
      rewrite Heq. apply IH; auto.
      * now apply coherent_drain.
      * intro HA. apply drain_ok; auto.
      * unfold drain. apply ring_inv_walk with (rest := []); auto.
        now rewrite app_nil_r.
Qed.

End Computed.

Lemma stacks_all_and p q acts :
  stacks_all (fun fs => p fs && q fs) acts
  = stacks_all p acts && stacks_all q acts.
Proof.
  induction acts as [|a acts IH]; [reflexivity|].
  destruct a; simpl; try exact IH.
  rewrite IH. destruct (p fs), (q fs), (stacks_all p acts); reflexivity.
Qed.


(** ** Runs of a controller *)

Section Runs.

Variable ASSERT : bool.
Variable sender : frame -> frame.
Variable A : Prop.
Hypothesis checked_ascending : ASSERT = true -> A.

Lemma published_iff oit g :
  (forall it, oit = Some it -> has_next it = true -> callee it <> 0) ->
  fst (published oit g) = 0 <-> is_done (snd (published oit g)) = true.
Proof.
  intro Hsane. unfold published.
  destruct oit as [it|]; [|simpl; tauto].
  destruct (has_next it) eqn:Hn; simpl; [|tauto].
  split; [|discriminate]. intro H. now apply Hsane in H.
Qed.

Lemma nonzero_after_barriers n : forall fs,
  nonzero_sps fs = true -> nonzero_sps (after_barriers n fs) = true.
Proof.
  induction n as [|n IH]; intros fs H; simpl; [exact H|].
  now apply IH, nonzero_after_barrier.
Qed.

Lemma inv_started s k l j g t t' :
  inv A (MkWorld (Controller s k None l) j g t) ->
  inv A (MkWorld (Controller (snd (published (started j) g))
                             (fst (published (started j) g))
                             (started j) false) j g t').
Proof.
  intros (_ & Hnz & Hasc & _). unfold inv. simpl in *.
  split; [|split; [exact Hnz | split; [exact Hasc|]]].
  - apply published_iff. intros it Hit Hn. unfold started in Hit.
    destruct (has_last_Java_frame j); [|discriminate].
    injection Hit as <-. now apply bootstrap_sane.
  - intros it Hit. unfold started in Hit.
    destruct (has_last_Java_frame j); [|discriminate].
    injection Hit as <-. split; [apply coherent_bootstrap | split].
    + rewrite bootstrap_frames. now apply nonzero_after_barriers.
    + intro HA. apply bootstrap_ok. now rewrite Hnz, Hasc.
Qed.

Lemma inv_forget_cursor s k oit l j g t :
  inv A (MkWorld (Controller s k oit l) j g t) ->
  inv A (MkWorld (Controller s k None l) j g t).
Proof.
  intros (H1 & H2 & H3 & _). unfold inv. simpl in *.
  repeat split; try tauto; discriminate.
Qed.

Lemma perform_inv a w :
  inv A w -> action_ok A a ->
  exists w', perform ASSERT sender a w = Ok tt w' /\ inv A w'.
Proof.
  intros Hinv Hact.
  destruct w as [[s k oit l] j g t].
  destruct a as [e|fs| | |ctx|fr| |]; cbn [perform].
  - eexists. split; [reflexivity|]. exact Hinv.
  - eexists. split; [reflexivity|].
    destruct Hinv as (H1 & _ & _ & H4). destruct Hact as [Hn Ha].
    unfold inv. simpl in *. auto.
  - (* start_iteration *)
    destruct (epoch s =? g) eqn:Hst.
    + rewrite start_iteration_current_eq
        by (unfold stale; simpl; now rewrite Hst).
      eexists. split; [reflexivity | exact Hinv].
    + rewrite start_iteration_stale_eq; auto.
      * eexists. split; [reflexivity|].
        eapply inv_started, inv_forget_cursor, Hinv.
      * intros _. apply Hinv.
  - (* process_one *)
    destruct (epoch s =? g) eqn:Hst.
    + destruct oit as [it|].
      * destruct Hinv as (_ & Hnz & Hasc & Hit).
        destruct (Hit it eq_refl) as (Hitco & Hitnz & Hitok).
        rewrite process_one_active_eq; auto.
        eexists. split; [reflexivity|].
        unfold inv. simpl.
        split; [|split; [exact Hnz | split; [exact Hasc|]]].
        -- apply published_iff. intros it' [= <-] Hn.
           now apply advance_sane.
        -- intros it' [= <-]. split; [now apply coherent_advance | split].
           ++ rewrite advance_frames. now apply nonzero_after_barrier.
           ++ intro HA. now apply advance_ok, Hitok.
      * rewrite process_one_idle_eq by exact Hst.
        eexists. split; [reflexivity|]. exact Hinv.
    + rewrite process_one_stale_eq; auto.
      * eexists. split; [reflexivity|].
        eapply inv_started, inv_forget_cursor, Hinv.
      * intros _. apply Hinv.
  - (* finish_iteration *)
    destruct Hinv as (_ & Hnz & Hasc & Hit).
    destruct (finish_iteration_eq ASSERT ctx s k oit l j g t)
      as (t' & Heq & _).
    { intros _ it Ho. apply (Hit it Ho). }
    { intro HA. simpl in *. destruct (epoch s =? g).
      - intros it Ho. now apply (Hit it Ho), checked_ascending.
      - rewrite Hnz, Hasc; auto. }
    rewrite Heq. eexists. split; [reflexivity|].
    unfold inv. simpl in *.
    split; [tauto|]. split; [exact Hnz|]. split; [exact Hasc|].
    intros it' Hit'.
    assert (Hsrc : exists it0, it' = drain it0 /\ coherent it0 = true
                               /\ (A -> cursor_ok it0 = true)).
    { unfold forced_cursor in Hit'. destruct (epoch s =? g).
      - destruct oit as [it0|]; [|discriminate].
        injection Hit' as <-. exists it0. split; [reflexivity|].
        destruct (Hit it0 eq_refl) as (? & ? & ?). auto.
      - unfold started in Hit'.
        destruct (has_last_Java_frame j); [|discriminate].
        injection Hit' as <-. exists (bootstrap j). split; [reflexivity|].
        split; [apply coherent_bootstrap|].
        intro HA. apply bootstrap_ok. now rewrite Hnz, Hasc. }
    destruct Hsrc as (it0 & -> & Hco0 & Hok0).
    split; [now apply coherent_drain | split].
    + now rewrite drain_frames.
    + intro HA. now apply drain_ok, Hok0.
  - (* is_frame_safe *)
    unfold bind. rewrite is_frame_safe_eq. unfold ret.
    eexists. split; [reflexivity|]. exact Hinv.
  - (* watermark *)
    eexists. split; [reflexivity|]. exact Hinv.
  - (* last_processed *)
    destruct (last_processed_eq s k oit l j g t) as (a & Heq).
    unfold bind. rewrite Heq. unfold ret.
    eexists. split; [reflexivity|]. exact Hinv.
Qed.

Lemma run_inv : forall acts w,
  inv A w ->
  stacks_all nonzero_sps acts = true ->
  (A -> stacks_all ascending acts = true) ->
  exists w', run ASSERT sender acts w = Ok tt w' /\ inv A w'.
Proof.
  induction acts as [|a acts IH]; intros w Hinv Hnz Hasc.
  - exists w. split; [reflexivity | exact Hinv].
  - assert (Hhead : action_ok A a
                    /\ stacks_all nonzero_sps acts = true
                    /\ (A -> stacks_all ascending acts = true)).
    { destruct a; simpl in *; try tauto.
      apply andb_true_iff in Hnz. destruct Hnz as [Hf Hr].
      repeat split; auto.
      - intro HA. specialize (Hasc HA). apply andb_true_iff in Hasc. tauto.
      - intro HA. specialize (Hasc HA). apply andb_true_iff in Hasc. tauto. }
    destruct Hhead as (Ha & Hnz' & Hasc').
    destruct (perform_inv a w Hinv Ha) as (w1 & Heq1 & Hinv1).
    destruct (IH w1 Hinv1 Hnz' Hasc') as (w' & Heq & Hinv').
    exists w'. split; [|exact Hinv'].
    cbn [run]. unfold bind. now rewrite Heq1.
Qed.

Lemma inv_initial e fs g :
  nonzero_sps fs = true -> (A -> ascending fs = true) ->
  inv A (initial e fs g).
Proof.
  intros Hnz Hasc. unfold inv, initial. simpl.
  repeat split; auto; discriminate.
Qed.

End Runs.

(** * The claims *)

Section Claims.

Variable ASSERT : bool.
Variable sender : frame -> frame.

(** ** C1: [is_frame_safe] *)

(** C1, as amended: [is_frame_safe] answers false when the cached epoch is
    stale; when it is current it answers true if the state is done, true if
    there is no cursor, and otherwise exactly whether the address of the
    frame (of its sender, for a safepoint-blob frame) is strictly below the
    cursor's caller boundary. *)
Theorem is_frame_safe_answer (fr : frame) (w : World) :
  answer (is_frame_safe sender fr w)
  = Some (if stale w then false
          else if is_done (_state (wm w)) then true
          else match _iterator (wm w) with
               | Some it =>
                 sp (if is_safepoint_blob_frame fr then sender fr else fr)
                 <? caller it
               | None => true
               end).
Proof.
  destruct w as [[s k oit l] j g t].
  rewrite is_frame_safe_eq. reflexivity.
Qed.

(** ** C10: [process_one] without a cursor *)

(** C10: with a current epoch and no cursor, [process_one] leaves the state
    word, the watermark and the (absent) cursor as they were and performs no
    store: the trace only gains the lock being taken and released. *)
Theorem process_one_idle (w : World) :
  stale w = false ->
  _iterator (wm w) = None ->
  exists w',
    process_one ASSERT w = Ok tt w'
    /\ _state (wm w') = _state (wm w)
    /\ _watermark (wm w') = _watermark (wm w)
    /\ _iterator (wm w') = None
    /\ trace w' = trace w ++ [EvLock; EvUnlock]
    /\ stores (trace w') = stores (trace w).
Proof.
  destruct w as [[s k oit l] j g t]. unfold stale. simpl.
  intros Hst%negb_false_iff ->.
  rewrite process_one_idle_eq by exact Hst.
  eexists. split; [reflexivity|]. simpl.
  rewrite stores_app, app_nil_r. auto 6.
Qed.

(** ** C5: [update_watermark] *)

(** C5: [update_watermark] stores the watermark first and the state word
    second; with a cursor that has frames left the two values are the
    cursor's callee boundary and (current epoch, not done), otherwise they
    are 0 and (current epoch, done).  A checked build needs the lock held
    and a non-null callee boundary for this. *)
Theorem update_watermark_publishes (w : World) :
  (ASSERT = true ->
   _lock (wm w) = true /\
   forall it, _iterator (wm w) = Some it -> has_next it = true ->
              callee it <> 0) ->
  exists w',
    update_watermark ASSERT w = Ok tt w'
    /\ _iterator (wm w') = _iterator (wm w)
    /\ match _iterator (wm w) with
       | Some it =>
         if has_next it then
           trace w' = trace w ++ [EvStoreWatermark (callee it);
                                  EvStoreState (create (epoch_id w) false)]
           /\ _watermark (wm w') = callee it
           /\ _state (wm w') = create (epoch_id w) false
         else
           trace w' = trace w ++ [EvStoreWatermark 0;
                                  EvStoreState (create (epoch_id w) true)]
           /\ _watermark (wm w') = 0
           /\ _state (wm w') = create (epoch_id w) true
       | None =>
           trace w' = trace w ++ [EvStoreWatermark 0;
                                  EvStoreState (create (epoch_id w) true)]
           /\ _watermark (wm w') = 0
           /\ _state (wm w') = create (epoch_id w) true
       end.
Proof.
  destruct w as [[s k oit l] j g t]. simpl. intro Hpre.
  rewrite update_watermark_eq by exact Hpre.
  eexists. split; [reflexivity|]. simpl. split; [reflexivity|].
  unfold published. destruct oit as [it|]; [destruct (has_next it)|];
    simpl; auto.
Qed.

(** ** C2: [process_one] of the controller *)

(** C2, as amended: on a stale epoch [process_one] starts a new iteration
    under the lock; on a current epoch with a cursor it makes one step of
    the cursor, which visits the frames up to and including the next
    barrier frame (all that are left if there is none), and then publishes
    with [update_watermark]; without a cursor it does nothing. *)
Theorem process_one_step (w : World) :
  coherent_cursor w = true ->
  (ASSERT = true -> nonzero_sps (remaining w) = true) ->
  exists w',
    process_one ASSERT w = Ok tt w'
    /\ if stale w then
         process_one ASSERT w
         = MutexLocker (start_iteration_impl ASSERT NULL) w
         /\ _iterator (wm w') = started (jt w)
         /\ processed (trace w')
            = processed (trace w) ++ through_barriers 3 (stack (jt w))
       else
         match _iterator (wm w) with
         | Some it =>
           _iterator (wm w') = Some (advance it)
           /\ frames (_frame_stream (advance it))
              = after_barrier (frames (_frame_stream it))
           /\ trace w'
              = trace w ++ [EvLock]
                ++ process_events NULL
                     (through_barrier (frames (_frame_stream it)))
                ++ [EvStoreWatermark (_watermark (wm w'));
                    EvStoreState (_state (wm w')); EvUnlock]
           /\ (_watermark (wm w'), _state (wm w'))
              = published (Some (advance it)) (epoch_id w)
         | None =>
           _state (wm w') = _state (wm w)
           /\ _watermark (wm w') = _watermark (wm w)
           /\ _iterator (wm w') = None
           /\ trace w' = trace w ++ [EvLock; EvUnlock]
         end.
Proof.
  destruct w as [[s k oit l] j g t].
  unfold remaining, stale, coherent_cursor. simpl.
  intros Hco Hpre. destruct (epoch s =? g) eqn:Hst; simpl in *.
  - destruct oit as [it|]; simpl in *.
    + rewrite process_one_active_eq by auto.
      eexists. split; [reflexivity|]. simpl.
      rewrite advance_frames. repeat split.
      now destruct (published (Some (advance it)) g).
    + rewrite process_one_idle_eq by auto.
      eexists. split; [reflexivity|]. simpl. auto.
  - rewrite process_one_stale_eq by auto.
    eexists. split; [reflexivity|]. split; [|split; [reflexivity|]].
    + unfold MutexLocker, lock, unlock. run_monad.
      rewrite start_iteration_impl_eq.
      * simpl. rewrite <- !app_assoc. reflexivity.
      * intro HA. auto.
    + cbn [trace]. rewrite processed_app. cbn [app processed].
      rewrite processed_app, processed_process_events. cbn [processed].
      now rewrite app_nil_r.
Qed.

(** ** C3: [start_iteration_impl] *)

(** C3, as amended: for a thread with frames [start_iteration_impl] builds
    a cursor and makes three steps of it, each visiting the frames up to and
    including the next barrier frame; that is three frames when the three
    topmost frames are barrier frames.  For a thread without frames there is
    no cursor afterwards and the state is done.  Either way the last two
    effects are the stores of [update_watermark]. *)
Theorem start_iteration_impl_bootstrap (ctx : context) (w : World) :
  (ASSERT = true ->
   _lock (wm w) = true /\ nonzero_sps (stack (jt w)) = true) ->
  exists w',
    start_iteration_impl ASSERT ctx w = Ok tt w'
    /\ _iterator (wm w')
       = (if has_last_Java_frame (jt w)
          then Some (advance (advance (advance
                       (new_StackWatermarkIterator (jt w)))))
          else None)
    /\ trace w'
       = trace w
         ++ process_events ctx (through_barriers 3 (stack (jt w)))
         ++ [EvStoreWatermark (_watermark (wm w'));
             EvStoreState (_state (wm w'))]
    /\ (_watermark (wm w'), _state (wm w'))
       = published (_iterator (wm w')) (epoch_id w)
    /\ (if has_last_Java_frame (jt w) then True
        else _watermark (wm w') = 0
             /\ _state (wm w') = create (epoch_id w) true
             /\ trace w' = trace w ++ [EvStoreWatermark 0;
                                       EvStoreState (create (epoch_id w) true)])
    /\ (forall f1 f2 f3 rest,
          stack (jt w) = f1 :: f2 :: f3 :: rest ->
          has_barrier f1 && has_barrier f2 && has_barrier f3 = true ->
          through_barriers 3 (stack (jt w)) = [f1; f2; f3]).
Proof.
  destruct w as [[s k oit l] j g t]. simpl. intro Hpre.
  rewrite start_iteration_impl_eq by exact Hpre.
  eexists. split; [reflexivity|]. simpl.
  split; [reflexivity|]. split; [reflexivity|].
  split; [now destruct (published (started j) g)|].
  split.
  - unfold started, has_last_Java_frame.
    destruct (stack j); simpl; auto.
  - intros f1 f2 f3 rest -> H.
    rewrite !andb_true_iff in H. destruct H as [[H1 H2] H3].
    simpl. rewrite H1. simpl. rewrite H2. simpl. now rewrite H3.
Qed.

(** ** C7: [process_all] of the cursor *)

(** C7: run under the lock, [process_all] processes every frame the cursor
    has left, in order, and leaves none; right after each fifth barrier
    frame it publishes with [update_watermark], releases the lock and takes
    it again ([paced]), so that no stretch between two releases holds more
    than five barrier frames and the number of releases is the number of
    barrier frames divided by five. *)
Theorem process_all_yields (ctx : context) (w : World)
    (it : StackWatermarkIterator) :
  _iterator (wm w) = Some it ->
  coherent it = true ->
  _lock (wm w) = true ->
  (ASSERT = true -> cursor_ok it = true) ->
  exists w' t',
    iterator_process_all ASSERT ctx w = Ok tt w'
    /\ trace w' = trace w ++ t'
    /\ _iterator (wm w') = Some (drain it)
    /\ has_next (drain it) = false
    /\ _lock (wm w') = true
    /\ processed t' = frames (_frame_stream it)
    /\ paced ctx (epoch_id w) 0 it t'
    /\ yields t'
       = barrier_count (frames (_frame_stream it)) / frames_per_poll_gc
    /\ Forall (fun n => n <= frames_per_poll_gc) (barrier_runs 0 t').
Proof.
  destruct w as [[s k oit l] j g t]. simpl. intros -> Hco -> Hok.
  destruct (iterator_process_all_paced ASSERT ctx s k it j g t Hco Hok)
    as (s' & k' & t' & Heq & Hp & Hpaced).
  rewrite Heq.
  exists (MkWorld (Controller s' k' (Some (drain it)) true) j g (t ++ t')), t'.
  simpl. repeat split; auto.
  - now apply has_next_drain.
  - now rewrite (paced_yields _ _ _ _ _ Hpaced).
  - now apply (paced_runs _ _ _ _ _ Hpaced).
Qed.

(** ** C6: [finish_iteration] *)

(** C6: [finish_iteration] returns, whatever is left to do, and when it
    does every frame that was left (the whole stack if the epoch was stale)
    has been processed, no frame remains, the watermark is 0 and the state
    word is (current epoch, done). *)
Theorem finish_iteration_completes (ctx : context) (w : World) :
  coherent_cursor w = true ->
  (ASSERT = true -> walkable w = true) ->
  exists w',
    finish_iteration ASSERT ctx w = Ok tt w'
    /\ _state (wm w') = create (epoch_id w) true
    /\ epoch_id w' = epoch_id w
    /\ stale w' = false
    /\ _watermark (wm w') = 0
    /\ frames_of (_iterator (wm w')) = []
    /\ processed (trace w') = processed (trace w) ++ remaining w.
Proof.
  destruct w as [[s k oit l] j g t].
  unfold walkable, remaining, stale, coherent_cursor.
  simpl. intros Hco Hpre.
  destruct (finish_iteration_eq ASSERT ctx s k oit l j g t)
    as (t' & Heq & Hp & _ & Hnone).
  { intros _ it ->. exact Hco. }
  { intro HA. specialize (Hpre HA).
    destruct (epoch s =? g); simpl in Hpre; [|exact Hpre].
    intros it ->. exact Hpre. }
  rewrite Heq. eexists. split; [reflexivity|]. simpl.
  split; [reflexivity|]. split; [reflexivity|].
  split; [now rewrite N.eqb_refl|]. split; [reflexivity|].
  split.
  - destruct (forced_cursor s oit j g); simpl; [apply drain_frames | reflexivity].
  - rewrite processed_app. cbn [processed].
    rewrite !processed_app, Hp. cbn [processed]. rewrite app_nil_r.
    f_equal. unfold forced_start, forced_cursor.
    destruct (epoch s =? g); cbn [negb].
    + reflexivity.
    + rewrite processed_app, processed_process_events.
      cbn [processed]. rewrite app_nil_r.
      unfold started, has_last_Java_frame.
      destruct (stack j) eqn:Hs; [reflexivity|].
      cbn [frames_of]. rewrite <- Hs, bootstrap_frames.
      apply through_after_n.
Qed.

(** ** C8: the boundary pair *)

(** C8: however a cursor built over the stack [fs] is advanced, by single
    steps and drains in any order, its boundary pair is what the two-slot
    ring gives for the addresses of the barrier frames visited so far (the
    last frame of the stack apart): the first fold sets callee, the second
    sets caller, each later one moves caller to callee and the new address
    to caller.  Frames without a barrier are never folded.  Frame addresses
    are not null. *)
Theorem boundary_ring (fs : list frame) (cs : list cursor_call) (w : World) :
  _iterator (wm w) = Some (new_StackWatermarkIterator (Thread fs)) ->
  _lock (wm w) = true ->
  nonzero_sps fs = true ->
  (ASSERT = true -> ascending fs = true) ->
  exists w' it visited,
    cursor_run ASSERT cs w = Ok tt w'
    /\ _iterator (wm w') = Some it
    /\ fs = visited ++ frames (_frame_stream it)
    /\ (callee it, caller it)
       = ring (folded visited (frames (_frame_stream it))).
Proof.
  destruct w as [[s k oit l] j g t]. simpl. intros -> -> Hnz Hasc.
  destruct (cursor_run_ring ASSERT fs cs s k
              (new_StackWatermarkIterator (Thread fs)) j g t)
    as (s' & k' & t' & it' & Heq & visited & Hfs & Hb); auto.
  - apply coherent_new.
  - intro HA. apply cursor_ok_new. simpl. now rewrite Hnz, Hasc.
  - apply ring_inv_new.
  - rewrite Heq. eexists _, it', visited. simpl. auto.
Qed.

(** ** C4: watermark and done flag *)

(** C4: after construction and after every public operation of any run,
    the watermark is 0 exactly when the state word says done.  The stacks
    of the thread have no frame at the null address (and ascend, in a
    checked build, which otherwise aborts). *)
Theorem watermark_zero_iff_done (e g : uint32_t) (fs : list frame)
    (acts : list action) :
  nonzero_sps fs && stacks_all nonzero_sps acts = true ->
  (ASSERT = true -> ascending fs && stacks_all ascending acts = true) ->
  exists w',
    run ASSERT sender acts (initial e fs g) = Ok tt w'
    /\ (_watermark (wm w') = 0 <-> is_done (_state (wm w')) = true).
Proof.
  intros Hnz Hasc. apply andb_true_iff in Hnz. destruct Hnz as [Hnz Hnzs].
  destruct (run_inv ASSERT sender (ASSERT = true) (fun H => H) acts
              (initial e fs g)) as (w' & Heq & Hinv & _); auto.
  - apply inv_initial; auto.
    intro HA. specialize (Hasc HA). apply andb_true_iff in Hasc. tauto.
  - intro HA. specialize (Hasc HA). apply andb_true_iff in Hasc. tauto.
  - exists w'. auto.
Qed.

(** ** C9: order of stack addresses *)


End Claims.

(** C1 as the spec states it fails: the controller below was built at
    epoch 1, the global epoch is 2, and the query is answered false. *)
Lemma is_frame_safe_stale_false :
  stale stub_on_top = true
  /\ answer (is_frame_safe no_sender (barrier_frame 16) stub_on_top)
     = Some false.
Proof. split; reflexivity. Qed.

Lemma process_one_idle_witness :
  stale idle_world = false
  /\ _iterator (wm idle_world) = None
  /\ exists w',
       process_one true idle_world = Ok tt w'
       /\ _state (wm w') = _state (wm idle_world)
       /\ _watermark (wm w') = _watermark (wm idle_world)
       /\ _iterator (wm w') = None
       /\ trace w' = trace idle_world ++ [EvLock; EvUnlock]
       /\ stores (trace w') = stores (trace idle_world).
Proof.
  split; [reflexivity|]. split; [reflexivity|].
  apply (process_one_idle true idle_world); reflexivity.
Defined.

Lemma update_watermark_publishes_witness :
  exists w',
    update_watermark true (locked mid_iteration) = Ok tt w'
    /\ trace w' = [EvStoreWatermark 32; EvStoreState (create 2 false)]
    /\ _watermark (wm w') = 32
    /\ _state (wm w') = create 2 false.
Proof.
  destruct (update_watermark_publishes true (locked mid_iteration))
    as (w' & Heq & _ & Hpub).
  - intros _. split; [reflexivity|].
    intros it [= <-] _. simpl. lia.
  - exists w'. split; [exact Heq | exact Hpub].
Defined.

(** C2 as the spec states it fails: after the bootstrap the next frame is a
    stub without a barrier, and one [process_one] visits it and the barrier
    frame behind it. *)
Lemma process_one_visits_two_frames :
  exists w1 w2,
    start_iteration true stub_in_middle = Ok tt w1
    /\ stale w1 = false
    /\ (exists it, _iterator (wm w1) = Some it /\ has_next it = true)
    /\ process_one true w1 = Ok tt w2
    /\ processed (trace w2)
       = processed (trace w1) ++ [plain_frame 48; barrier_frame 64].
Proof.
  do 2 eexists. split; [vm_compute; reflexivity|].
  split; [reflexivity|]. split; [eexists; split; reflexivity|].
  split; [vm_compute; reflexivity|]. reflexivity.
Qed.

Lemma process_one_step_witness :
  exists w',
    process_one true mid_iteration = Ok tt w'
    /\ processed (trace w') = [plain_frame 40; barrier_frame 48].
Proof.
  destruct (process_one_step true mid_iteration)
    as (w' & Heq & _ & _ & Htr & _).
  - reflexivity.
  - intros _. reflexivity.
  - exists w'. split; [exact Heq|]. rewrite Htr. reflexivity.
Defined.

(** C3 as the spec states it fails: with a stub on top of the stack the
    bootstrap visits four frames. *)
Lemma start_iteration_impl_visits_four_frames :
  has_last_Java_frame (jt stub_on_top) = true
  /\ exists w',
       start_iteration_impl true NULL (locked stub_on_top) = Ok tt w'
       /\ processed (trace w')
          = [plain_frame 8; barrier_frame 16; barrier_frame 32;
             barrier_frame 40].
Proof.
  split; [reflexivity|]. eexists. split; [vm_compute; reflexivity|].
  reflexivity.
Qed.

Lemma start_iteration_impl_bootstrap_witness :
  exists w',
    start_iteration_impl true NULL (locked stub_in_middle) = Ok tt w'
    /\ processed (trace w')
       = [barrier_frame 16; barrier_frame 32; barrier_frame 40]
    /\ through_barriers 3 (stack (jt stub_in_middle))
       = [barrier_frame 16; barrier_frame 32; barrier_frame 40].
Proof.
  destruct (start_iteration_impl_bootstrap true NULL (locked stub_in_middle))
    as (w' & Heq & _ & Htr & _ & _ & Hthree).
  - intros _. split; reflexivity.
  - exists w'. split; [exact Heq|]. split.
    + rewrite Htr. reflexivity.
    + apply (Hthree (barrier_frame 16) (barrier_frame 32) (barrier_frame 40)
               [plain_frame 48; barrier_frame 64; barrier_frame 80]);
        reflexivity.
Defined.

Lemma process_all_yields_witness :
  exists w' t',
    iterator_process_all true 7 long_walk = Ok tt w'
    /\ trace w' = t'
    /\ processed t' = long_stack
    /\ yields t' = 2.
Proof.
  destruct (process_all_yields true 7 long_walk
              (new_StackWatermarkIterator (Thread long_stack)))
    as (w' & t' & Heq & Htr & _ & _ & _ & Hp & _ & Hy & _).
  - reflexivity.
  - reflexivity.
  - reflexivity.
  - intros _. reflexivity.
  - exists w', t'. split; [exact Heq|]. split; [exact Htr|].
    split; [exact Hp | exact Hy].
Defined.

Lemma finish_iteration_completes_witness :
  exists w',
    finish_iteration true 7 mid_iteration = Ok tt w'
    /\ _state (wm w') = create 2 true
    /\ _watermark (wm w') = 0
    /\ processed (trace w')
       = [plain_frame 40; barrier_frame 48; barrier_frame 56].
Proof.
  destruct (finish_iteration_completes true 7 mid_iteration)
    as (w' & Heq & Hs & _ & _ & Hw & _ & Hp).
  - reflexivity.
  - intros _. reflexivity.
  - exists w'. split; [exact Heq|]. split; [exact Hs|].
    split; [exact Hw | exact Hp].
Defined.

Lemma boundary_ring_witness :
  exists w' it,
    cursor_run true [CursorProcessOne 0; CursorProcessOne 0;
                     CursorProcessOne 0; CursorProcessAll 7] long_walk
    = Ok tt w'
    /\ _iterator (wm w') = Some it
    /\ (callee it, caller it) = (144, 160).
Proof.
  destruct (boundary_ring true long_stack
              [CursorProcessOne 0; CursorProcessOne 0;
               CursorProcessOne 0; CursorProcessAll 7] long_walk)
    as (w' & it & visited & Heq & Hit & Hfs & Hb).
  - reflexivity.
  - reflexivity.
  - reflexivity.
  - intros _. reflexivity.
  - exists w', it. split; [exact Heq|]. split; [exact Hit|].
    vm_compute in Heq. injection Heq as <-. injection Hit as <-.
    reflexivity.
Defined.

Lemma watermark_zero_iff_done_witness :
  exists w',
    run true no_sender busy_life stub_in_middle = Ok tt w'
    /\ (_watermark (wm w') = 0 <-> is_done (_state (wm w')) = true).
Proof.
  apply (watermark_zero_iff_done true no_sender 1 2
           [barrier_frame 16; barrier_frame 32; barrier_frame 40;
            plain_frame 48; barrier_frame 64; barrier_frame 80] busy_life).
  - reflexivity.
  - intros _. reflexivity.
Defined.



(** * Further properties of the code *)

(** ** More pure facts *)

Lemma after_barrier_shorter fs :
  (List.length (after_barrier fs) <= Nat.pred (List.length fs))%nat.
Proof.
  induction fs as [|f fs IH]; simpl; [lia|].
  destruct (has_barrier f); simpl; lia.
Qed.

Lemma after_barriers_nil : forall n fs,
  (List.length fs <= n)%nat -> after_barriers n fs = [].
Proof.
  induction n as [|n IH]; intros fs Hn; simpl.
  - destruct fs; [reflexivity | simpl in Hn; lia].
  - apply IH. pose proof (after_barrier_shorter fs). lia.
Qed.

Lemma through_barriers_all n fs :
  (List.length fs <= n)%nat -> through_barriers n fs = fs.
Proof.
  intro Hn. pose proof (through_after_n n fs) as H.
  rewrite after_barriers_nil, app_nil_r in H by exact Hn. exact H.
Qed.

Lemma after_barriers_add : forall n m fs,
  after_barriers (n + m) fs = after_barriers m (after_barriers n fs).
Proof.
  induction n as [|n IH]; intros m fs; simpl; [reflexivity | apply IH].
Qed.

Lemma through_barriers_add : forall n m fs,
  through_barriers (n + m) fs
  = through_barriers n fs ++ through_barriers m (after_barriers n fs).
Proof.
  induction n as [|n IH]; intros m fs; simpl; [reflexivity|].
  now rewrite IH, app_assoc.
Qed.

Lemma advance_n_frames : forall n it,
  frames (_frame_stream (advance_n n it))
  = after_barriers n (frames (_frame_stream it)).
Proof.
  induction n as [|n IH]; intro it; simpl; [reflexivity|].
  now rewrite IH, advance_frames.
Qed.

Lemma coherent_advance_n : forall n it,
  coherent it = true -> coherent (advance_n n it) = true.
Proof.
  induction n as [|n IH]; intros it H; simpl; [exact H|].
  now apply IH, coherent_advance.
Qed.

Lemma nonzero_after_barriers_more n : forall fs,
  nonzero_sps fs = true -> nonzero_sps (after_barriers n fs) = true.
Proof.
  induction n as [|n IH]; intros fs H; simpl; [exact H|].
  now apply IH, nonzero_after_barrier.
Qed.

Lemma caller_visit_mono it f rest :
  frames (_frame_stream it) = f :: rest ->
  cursor_ok it = true -> caller it <= caller (visit it f).
Proof.
  intros Hfr Hok. unfold cursor_ok, caller_below in Hok.
  rewrite Hfr in Hok. simpl in Hok. rewrite !andb_true_iff in Hok.
  destruct Hok as [_ [Hle _]]. apply N.leb_le in Hle.
  destruct (visit_caller_cases it f) as [-> | ->]; [lia | exact Hle].
Qed.

Lemma caller_walk_mono : forall vs rest it,
  frames (_frame_stream it) = vs ++ rest ->
  cursor_ok it = true -> caller it <= caller (walk vs it).
Proof.
  induction vs as [|f vs IH]; intros rest it Hfr Hok; [simpl; lia|].
  rewrite walk_cons.
  pose proof (caller_visit_mono it f (vs ++ rest) Hfr Hok) as H1.
  assert (H2 : caller (visit it f) <= caller (walk vs (visit it f))).
  { apply (IH rest).
    - rewrite visit_frames, Hfr. reflexivity.
    - eapply visit_ok; eauto. }
  lia.
Qed.

Lemma caller_advance_mono it :
  cursor_ok it = true -> caller it <= caller (advance it).
Proof.
  intro Hok. unfold advance.
  apply caller_walk_mono
    with (rest := after_barrier (frames (_frame_stream it))); auto.
  symmetry. apply through_after.
Qed.

Lemma advance_done it :
  frames (_frame_stream it) = [] -> advance it = it.
Proof. intro H. unfold advance. now rewrite H. Qed.

Lemma cursor_ok_done it :
  frames (_frame_stream it) = [] -> cursor_ok it = true.
Proof. intro H. unfold cursor_ok, caller_below. now rewrite H. Qed.

Lemma no_next_frames it :
  coherent it = true -> has_next it = false ->
  frames (_frame_stream it) = [].
Proof.
  intros Hco Hn. rewrite has_next_frames in Hn by exact Hco.
  destruct (frames (_frame_stream it)); [reflexivity | discriminate].
Qed.

(** ** Traces and the lock *)

Lemma lock_discipline_app : forall t1 t2 h,
  lock_discipline h (t1 ++ t2)
  = match lock_discipline h t1 with
    | Some h' => lock_discipline h' t2
    | None => None
    end.
Proof.
  induction t1 as [|e t1 IH]; intros t2 h; [reflexivity|].
  destruct e, h; simpl; auto.
Qed.

Lemma lock_discipline_process_events ctx fs :
  lock_discipline true (process_events ctx fs) = Some true.
Proof. induction fs as [|f fs IH]; simpl; auto. Qed.

Lemma paced_lock_discipline ctx g i it tr :
  paced ctx g i it tr -> lock_discipline true tr = Some true.
Proof. induction 1; simpl; auto. Qed.

Lemma contexts_app t1 t2 : contexts (t1 ++ t2) = contexts t1 ++ contexts t2.
Proof.
  induction t1 as [|e t1 IH]; simpl; [reflexivity|].
  destruct e; simpl; now rewrite ?IH.
Qed.

Lemma contexts_process_events ctx fs :
  Forall (fun c => c = ctx) (contexts (process_events ctx fs)).
Proof. induction fs as [|f fs IH]; simpl; auto. Qed.

Lemma paced_contexts ctx g i it tr :
  paced ctx g i it tr -> Forall (fun c => c = ctx) (contexts tr).
Proof. induction 1; simpl; auto. Qed.

(** ** What the state word says *)

Lemma epoch_published o g : epoch (snd (published o g)) = g.
Proof.
  unfold published. destruct o as [it|]; [destruct (has_next it)|];
    reflexivity.
Qed.

Lemma is_done_published o g :
  is_done (snd (published o g)) = negb (cursor_has_next o).
Proof.
  unfold published. destruct o as [it|]; [simpl; destruct (has_next it)|];
    reflexivity.
Qed.

Lemma settled_published o g l j g' t :
  settled (MkWorld (Controller (snd (published o g)) (fst (published o g))
                      o l) j g' t) = true.
Proof. unfold settled. simpl. rewrite is_done_published. apply eqb_reflx. Qed.

Lemma published_done o g :
  cursor_has_next o = false -> published o g = (0, create g true).
Proof.
  unfold published. destruct o as [it|]; simpl; [|reflexivity].
  now intros ->.
Qed.

(** ** Runs, once more *)

Section MoreRuns.

Variable ASSERT : bool.
Variable sender : frame -> frame.
Variable A : Prop.
Hypothesis checked_ascending : ASSERT = true -> A.

Lemma lock_discipline_call seg a s :
  lock_discipline true seg = Some true ->
  lock_discipline false
    (EvLock :: seg ++ [EvStoreWatermark a; EvStoreState s; EvUnlock])
  = Some false.
Proof.
  intro H. cbn [lock_discipline]. now rewrite lock_discipline_app, H.
Qed.

Lemma lock_discipline_snoc_stores seg a s :
  lock_discipline true seg = Some true ->
  lock_discipline true (seg ++ [EvStoreWatermark a; EvStoreState s])
  = Some true.
Proof. intro H. now rewrite lock_discipline_app, H. Qed.

Lemma forced_cursor_coherent s oit j g it :
  (forall it0, oit = Some it0 -> coherent it0 = true) ->
  forced_cursor s oit j g = Some it -> coherent it = true.
Proof.
  intros Hco Hit. unfold forced_cursor in Hit.
  destruct (epoch s =? g); [now apply Hco|].
  unfold started in Hit. destruct (has_last_Java_frame j); [|discriminate].
  injection Hit as <-. apply coherent_bootstrap.
Qed.

Lemma lock_discipline_forced_start ctx s j g :
  lock_discipline true (forced_start ctx s j g) = Some true.
Proof.
  unfold forced_start. destruct (epoch s =? g); [reflexivity|].
  apply lock_discipline_snoc_stores, lock_discipline_process_events.
Qed.

Lemma perform_more a w :
  inv A w -> settled w = true -> action_ok A a ->
  exists w' seg,
    perform ASSERT sender a w = Ok tt w'
    /\ inv A w'
    /\ settled w' = true
    /\ trace w' = trace w ++ seg
    /\ lock_discipline false seg = Some false.
Proof.
  intros Hinv Hset Hact.
  destruct (perform_inv ASSERT sender A checked_ascending a w Hinv Hact)
    as (w1 & Heq1 & Hinv1).
  exists w1.
  destruct w as [[s k oit l] j g t].
  destruct a as [e|fs| | |ctx|fr| |]; cbn [perform] in *.
  - exists []. injection Heq1 as <-. cbn [trace].
    rewrite app_nil_r. auto.
  - exists []. injection Heq1 as <-. cbn [trace].
    rewrite app_nil_r. auto.
  - (* start_iteration *)
    destruct (epoch s =? g) eqn:Hst.
    + rewrite start_iteration_current_eq in Heq1 |- *
        by (unfold stale; simpl; now rewrite Hst).
      injection Heq1 as <-. exists []. cbn [trace].
      rewrite app_nil_r. auto.
    + assert (Hpre : ASSERT = true -> nonzero_sps (stack j) = true)
        by (intros _; apply Hinv).
      rewrite start_iteration_stale_eq in Heq1 |- * by auto.
      injection Heq1 as <-. eexists. split; [reflexivity|].
      split; [exact Hinv1|]. split; [apply settled_published|].
      split; [reflexivity|].
      apply lock_discipline_call, lock_discipline_process_events.
  - (* process_one *)
    destruct (epoch s =? g) eqn:Hst.
    + destruct oit as [it|].
      * destruct Hinv as (_ & Hnz & Hasc & Hit).
        destruct (Hit it eq_refl) as (Hitco & Hitnz & Hitok).
        rewrite process_one_active_eq in Heq1 |- * by auto.
        injection Heq1 as <-. eexists. split; [reflexivity|].
        split; [exact Hinv1|]. split; [apply settled_published|].
        split; [reflexivity|].
        apply lock_discipline_call, lock_discipline_process_events.
      * rewrite process_one_idle_eq in Heq1 |- * by exact Hst.
        injection Heq1 as <-. exists [EvLock; EvUnlock]. auto.
    + assert (Hpre : ASSERT = true -> nonzero_sps (stack j) = true)
        by (intros _; apply Hinv).
      rewrite process_one_stale_eq in Heq1 |- * by auto.
      injection Heq1 as <-. eexists. split; [reflexivity|].
      split; [exact Hinv1|]. split; [apply settled_published|].
      split; [reflexivity|].
      apply lock_discipline_call, lock_discipline_process_events.
  - (* finish_iteration *)
    assert (Hco : forall it0, oit = Some it0 -> coherent it0 = true)
      by (intros it0 Ho; apply (proj2 (proj2 (proj2 Hinv)) it0 Ho)).
    destruct (finish_iteration_eq ASSERT ctx s k oit l j g t)
      as (t' & Heq & _ & Hpaced & Hnone).
    { intros _. exact Hco. }
    { destruct Hinv as (_ & Hnz & Hasc & Hit).
      intro HA. simpl in *. destruct (epoch s =? g).
      - intros it Ho. now apply (Hit it Ho), checked_ascending.
      - rewrite Hnz, Hasc; auto. }
    rewrite Heq in Heq1 |- *. injection Heq1 as <-.
    eexists. split; [reflexivity|]. split; [exact Hinv1|].
    split; [|split; [reflexivity|]].
    + unfold settled. cbn [wm _state _iterator is_done].
      destruct (forced_cursor s oit j g) as [it|] eqn:Hfc; simpl;
        [|reflexivity].
      rewrite has_next_drain; [reflexivity|].
      eapply forced_cursor_coherent; eauto.
    + cbn [app]. rewrite app_assoc. apply lock_discipline_call.
      rewrite lock_discipline_app, lock_discipline_forced_start.
      destruct (forced_cursor s oit j g) as [it|] eqn:Hfc.
      * eapply paced_lock_discipline, Hpaced. reflexivity.
      * now rewrite Hnone.
  - (* is_frame_safe *)
    unfold bind in Heq1 |- *. rewrite is_frame_safe_eq in Heq1 |- *.
    unfold ret in *. injection Heq1 as <-.
    exists [EvLock; EvUnlock]. auto.
  - (* watermark *)
    injection Heq1 as <-. exists []. cbn [trace]. rewrite app_nil_r. auto.
  - (* last_processed *)
    destruct (last_processed_eq s k oit l j g t) as (a & Heq).
    unfold bind in Heq1 |- *. rewrite Heq in Heq1 |- *.
    unfold ret in *. injection Heq1 as <-.
    exists [EvLock; EvUnlock]. auto.
Qed.

Lemma stacks_all_cons p a acts :
  stacks_all p (a :: acts) = true ->
  match a with ThreadRuns fs => p fs = true | _ => True end
  /\ stacks_all p acts = true.
Proof.
  destruct a; simpl; auto. intro H. now apply andb_true_iff in H.
Qed.

Lemma run_more : forall acts w,
  inv A w -> settled w = true ->
  stacks_all nonzero_sps acts = true ->
  (A -> stacks_all ascending acts = true) ->
  exists w' seg,
    run ASSERT sender acts w = Ok tt w'
    /\ inv A w'
    /\ settled w' = true
    /\ trace w' = trace w ++ seg
    /\ lock_discipline false seg = Some false.
Proof.
  induction acts as [|a acts IH]; intros w Hinv Hset Hnz Hasc.
  - exists w, []. rewrite app_nil_r. auto.
  - apply stacks_all_cons in Hnz. destruct Hnz as [Hnza Hnz].
    assert (Hasc' : A -> stacks_all ascending acts = true)
      by (intro HA; apply (stacks_all_cons _ _ _ (Hasc HA))).
    assert (Ha : action_ok A a).
    { destruct a; simpl; auto. split; [exact Hnza|].
      intro HA. apply (stacks_all_cons _ _ _ (Hasc HA)). }
    destruct (perform_more a w Hinv Hset Ha)
      as (w1 & seg1 & Heq1 & Hinv1 & Hset1 & Htr1 & Hld1).
    destruct (IH w1 Hinv1 Hset1 Hnz Hasc')
      as (w' & seg & Heq & Hinv' & Hset' & Htr & Hld).
    exists w', (seg1 ++ seg). cbn [run]. unfold bind. rewrite Heq1.
    split; [exact Heq|]. split; [exact Hinv'|]. split; [exact Hset'|].
    split; [now rewrite Htr, Htr1, app_assoc|].
    now rewrite lock_discipline_app, Hld1.
Qed.

Lemma settled_initial e fs g : settled (initial e fs g) = true.
Proof. reflexivity. Qed.

End MoreRuns.

(** ** Properties of single operations *)

Section Further.

Variable ASSERT : bool.
Variable sender : frame -> frame.

(** X1: [start_iteration] brings the controller up to date with the global
    epoch, and calling it again changes nothing at all: the second call
    sees a current epoch on its first, lock-free test and does not even take
    the lock. *)
Theorem start_iteration_idempotent (w : World) :
  (ASSERT = true -> nonzero_sps (stack (jt w)) = true) ->
  exists w1,
    start_iteration ASSERT w = Ok tt w1
    /\ stale w1 = false
    /\ epoch_id w1 = epoch_id w
    /\ start_iteration ASSERT w1 = Ok tt w1.
Proof.
  destruct w as [[s k oit l] j g t]. simpl. intro Hpre.
  destruct (epoch s =? g) eqn:Hst.
  - assert (Hcur : stale (MkWorld (Controller s k oit l) j g t) = false)
      by (unfold stale; simpl; now rewrite Hst).
    rewrite start_iteration_current_eq by exact Hcur.
    eexists. split; [reflexivity|]. split; [exact Hcur|].
    split; [reflexivity|].
    now apply start_iteration_current_eq.
  - rewrite start_iteration_stale_eq by auto.
    eexists. split; [reflexivity|].
    assert (Hcur : forall l' t',
      stale (MkWorld (Controller (snd (published (started j) g))
                                 (fst (published (started j) g))
                                 (started j) l') j g t') = false).
    { intros l' t'. unfold stale. simpl.
      now rewrite epoch_published, N.eqb_refl. }
    split; [apply Hcur|]. split; [reflexivity|].
    apply start_iteration_current_eq, Hcur.
Qed.

(** X2: an iteration left over from an earlier epoch is never continued.
    On a stale epoch the three advancing operations give the same result
    whatever cursor, watermark, done flag and stale epoch number the
    controller held. *)
Theorem stale_iteration_discarded (ctx : context) (w1 w2 : World) :
  stale w1 = true -> stale w2 = true ->
  jt w1 = jt w2 -> epoch_id w1 = epoch_id w2 -> trace w1 = trace w2 ->
  (ASSERT = true -> nonzero_sps (stack (jt w1)) = true) ->
  process_one ASSERT w1 = process_one ASSERT w2
  /\ start_iteration ASSERT w1 = start_iteration ASSERT w2
  /\ finish_iteration ASSERT ctx w1 = finish_iteration ASSERT ctx w2.
Proof.
  destruct w1 as [[s1 k1 o1 l1] j g t], w2 as [[s2 k2 o2 l2] j2 g2 t2].
  unfold stale. simpl.
  intros Hs1%negb_true_iff Hs2%negb_true_iff <- <- <- Hpre.
  split; [|split].
  - now rewrite !process_one_stale_eq by auto.
  - now rewrite !start_iteration_stale_eq by auto.
  - unfold finish_iteration. run_monad. rewrite Hs1, Hs2. simpl.
    rewrite !start_iteration_impl_eq by (intro HA; auto).
    reflexivity.
Qed.

(** X3: [last_processed] answers 0 when the epoch is stale, when the
    watermark is 0 and when there is no cursor, and the cursor's caller
    boundary otherwise; it leaves state word, watermark and cursor as they
    were and its only effects are taking and releasing the lock. *)
Theorem last_processed_answer (w : World) :
  exists w',
    last_processed w = Ok (last_processed_of w) w'
    /\ _state (wm w') = _state (wm w)
    /\ _watermark (wm w') = _watermark (wm w)
    /\ _iterator (wm w') = _iterator (wm w)
    /\ trace w' = trace w ++ [EvLock; EvUnlock].
Proof.
  destruct w as [[s k oit l] j g t].
  unfold last_processed, last_processed_of, watermark, stale. run_monad.
  destruct (epoch s =? g); simpl;
    [destruct (k =? 0); simpl; [|destruct oit; simpl]|];
    rewrite <- !app_assoc; eexists; (split; [reflexivity|]); simpl; auto.
Qed.

(** X4: the assertions of [update_watermark].  A checked build aborts when
    the lock is not held, before anything is stored, and aborts on a cursor
    that has frames left but a null callee boundary; a product build stores
    in every case. *)
Theorem update_watermark_assertions (w : World) :
  (ASSERT = true -> _lock (wm w) = false ->
   update_watermark ASSERT w = Fatal "invariant")
  /\ (ASSERT = true -> _lock (wm w) = true ->
      forall it, _iterator (wm w) = Some it ->
                 has_next it = true -> callee it = 0 ->
                 update_watermark ASSERT w = Fatal "sanity")
  /\ (ASSERT = false ->
      exists w', update_watermark ASSERT w = Ok tt w'
                 /\ stores (trace w')
                    = stores (trace w)
                      ++ [EvStoreWatermark (_watermark (wm w'));
                          EvStoreState (_state (wm w'))]).
Proof.
  destruct w as [[s k oit l] j g t]. simpl. split; [|split].
  - intros HA ->. unfold update_watermark.
    unfold bind at 1, get. unfold bind at 1.
    now rewrite vmassert_fires.
  - intros HA -> it -> Hn Hz. unfold update_watermark.
    unfold bind at 1, get. unfold bind at 1.
    rewrite vmassert_holds by auto. simpl. rewrite Hn.
    unfold bind at 1. rewrite vmassert_fires; auto.
    rewrite Hz. reflexivity.
  - intro HA. rewrite update_watermark_eq by (intro; congruence).
    eexists. split; [reflexivity|]. simpl.
    now rewrite stores_app.
Qed.

End Further.

Section Stability.

Variable ASSERT : bool.
Variable sender : frame -> frame.

Lemma state_current_done (s : StackWatermarkState) (g : uint32_t) :
  (epoch s =? g) = true -> is_done s = true -> s = create g true.
Proof.
  destruct s as [e d]. simpl. intros He%N.eqb_eq ->. now subst.
Qed.

(** X5: done is stable.  Once the state word says done for the current
    epoch, each of the three advancing operations returns with the state
    word as it was, hands no frame to the callback and leaves a watermark
    of 0 at 0; only a new global epoch ends this. *)
Theorem done_is_stable (a : action) (w : World) :
  is_mutator a = true ->
  stale w = false ->
  is_done (_state (wm w)) = true ->
  cursor_has_next (_iterator (wm w)) = false ->
  coherent_cursor w = true ->
  exists w',
    perform ASSERT sender a w = Ok tt w'
    /\ _state (wm w') = _state (wm w)
    /\ stale w' = false
    /\ cursor_has_next (_iterator (wm w')) = false
    /\ processed (trace w') = processed (trace w)
    /\ (_watermark (wm w) = 0 -> _watermark (wm w') = 0).
Proof.
  destruct w as [[s k oit l] j g t]. unfold stale, coherent_cursor. simpl.
  intros Hmut Hst%negb_false_iff Hdone Hnn Hco.
  pose proof (state_current_done s g Hst Hdone) as Hs.
  destruct a as [e|fs| | |ctx|fr| |]; try discriminate; cbn [perform].
  - rewrite start_iteration_current_eq
      by (unfold stale; simpl; now rewrite Hst).
    eexists. split; [reflexivity|]. simpl. rewrite Hst. auto.
  - destruct oit as [it|]; simpl in *.
    + pose proof (no_next_frames it Hco Hnn) as Hfr.
      rewrite process_one_active_eq; auto.
      2:{ intros _. now rewrite Hfr. }
      rewrite (advance_done it Hfr), Hfr.
      rewrite (published_done (Some it) g) by exact Hnn.
      eexists. split; [reflexivity|]. simpl.
      rewrite N.eqb_refl, Hnn, Hs. repeat split.
      rewrite !processed_app. simpl. now rewrite app_nil_r.
    + rewrite process_one_idle_eq by exact Hst.
      eexists. split; [reflexivity|]. simpl. rewrite Hst.
      repeat split; auto.
      rewrite processed_app. simpl. now rewrite app_nil_r.
  - destruct (finish_iteration_eq ASSERT ctx s k oit l j g t)
      as (t' & Heq & Hp & _ & _).
    { intros _ it ->. exact Hco. }
    { intros _. rewrite Hst. intros it ->. simpl in *.
      apply cursor_ok_done. now apply no_next_frames. }
    rewrite Heq. eexists. split; [reflexivity|]. simpl.
    unfold forced_cursor, forced_start in *. rewrite Hst in *.
    rewrite N.eqb_refl, Hs. repeat split.
    + destruct oit as [it|]; simpl in *; [|reflexivity].
      now apply has_next_drain.
    + rewrite processed_app. cbn [app processed].
      rewrite processed_app, Hp. cbn [processed].
      destruct oit as [it|]; simpl in *.
      * rewrite (no_next_frames it Hco Hnn). now rewrite app_nil_r.
      * now rewrite app_nil_r.
Qed.

End Stability.

Ltac processed_norm :=
  repeat first [ rewrite processed_app
               | rewrite processed_process_events
               | progress cbn [app processed] ];
  rewrite ?app_nil_r, <- ?app_assoc.

Section Progress.

Variable ASSERT : bool.
Variable sender : frame -> frame.

Lemma after_barriers_length : forall n fs,
  (List.length (after_barriers n fs) <= List.length fs)%nat.
Proof.
  induction n as [|n IH]; intro fs; simpl; [lia|].
  pose proof (IH (after_barrier fs)).
  pose proof (after_barrier_shorter fs). lia.
Qed.

Lemma process_one_repeat : forall n it j g t,
  coherent it = true ->
  (ASSERT = true -> nonzero_sps (frames (_frame_stream it)) = true) ->
  exists seg,
    run ASSERT sender (repeat ProcessOne n)
      (MkWorld (Controller (snd (published (Some it) g))
                           (fst (published (Some it) g)) (Some it) false)
               j g t)
    = Ok tt
        (MkWorld (Controller (snd (published (Some (advance_n n it)) g))
                             (fst (published (Some (advance_n n it)) g))
                             (Some (advance_n n it)) false)
                 j g (t ++ seg))
    /\ processed seg = through_barriers n (frames (_frame_stream it)).
Proof.
  induction n as [|n IH]; intros it j g t Hco Hnz.
  - exists []. rewrite app_nil_r. split; reflexivity.
  - cbn [repeat run perform]. unfold bind at 1.
    rewrite process_one_active_eq; auto.
    2:{ now rewrite epoch_published, N.eqb_refl. }
    destruct (IH (advance it) j g
                (t ++ [EvLock]
                   ++ process_events NULL
                        (through_barrier (frames (_frame_stream it)))
                   ++ [EvStoreWatermark
                         (fst (published (Some (advance it)) g));
                       EvStoreState
                         (snd (published (Some (advance it)) g));
                       EvUnlock]))
      as (seg & Heq & Hp).
    { now apply coherent_advance. }
    { intro HA. rewrite advance_frames. now apply nonzero_after_barrier, Hnz. }
    rewrite Heq. eexists. split.
    + cbn [advance_n]. rewrite <- app_assoc. reflexivity.
    + cbn [through_barriers]. processed_norm.
      now rewrite Hp, advance_frames.
Qed.

Lemma process_one_repeat_idle : forall n s k j g t,
  (epoch s =? g) = true ->
  exists seg,
    run ASSERT sender (repeat ProcessOne n)
      (MkWorld (Controller s k None false) j g t)
    = Ok tt (MkWorld (Controller s k None false) j g (t ++ seg))
    /\ processed seg = [].
Proof.
  induction n as [|n IH]; intros s k j g t Hst.
  - exists []. rewrite app_nil_r. split; reflexivity.
  - cbn [repeat run perform]. unfold bind at 1.
    rewrite process_one_idle_eq by exact Hst.
    destruct (IH s k j g (t ++ [EvLock; EvUnlock]) Hst) as (seg & Heq & Hp).
    rewrite Heq. eexists. split.
    + rewrite <- app_assoc. reflexivity.
    + simpl. exact Hp.
Qed.

(** X6: progress.  Called as many times as frames remain (and at least
    once), [process_one] gets through all of them: the run returns, every
    remaining frame has been handed to the callback once and in order, no
    frame is left, the watermark is 0 and the state word says done for the
    current epoch. *)
Theorem process_one_reaches_done (n : nat) (w : World) :
  coherent_cursor w = true ->
  (ASSERT = true -> nonzero_sps (remaining w) = true) ->
  stale w || cursor_has_next (_iterator (wm w)) = true ->
  (1 <= n)%nat ->
  (List.length (remaining w) <= n)%nat ->
  exists w',
    run ASSERT sender (repeat ProcessOne n) w = Ok tt w'
    /\ _state (wm w') = create (epoch_id w) true
    /\ _watermark (wm w') = 0
    /\ frames_of (_iterator (wm w')) = []
    /\ processed (trace w') = processed (trace w) ++ remaining w.
Proof.
  destruct w as [[s k oit l] j g t].
  unfold coherent_cursor, remaining, stale. simpl.
  intros Hco Hnz Hlive Hn Hlen.
  destruct n as [|m]; [lia|].
  cbn [repeat run perform]. unfold bind at 1.
  destruct (epoch s =? g) eqn:Hst; simpl in *.
  - destruct oit as [it|]; [|discriminate]. simpl in *.
    rewrite process_one_active_eq; auto.
    destruct (process_one_repeat m (advance it) j g
                (t ++ [EvLock]
                   ++ process_events NULL
                        (through_barrier (frames (_frame_stream it)))
                   ++ [EvStoreWatermark
                         (fst (published (Some (advance it)) g));
                       EvStoreState
                         (snd (published (Some (advance it)) g));
                       EvUnlock]))
      as (seg & Heq & Hp).
    { now apply coherent_advance. }
    { intro HA. rewrite advance_frames. now apply nonzero_after_barrier, Hnz. }
    rewrite Heq. eexists. split; [reflexivity|]. cbn [wm _state _watermark
      _iterator trace frames_of].
    assert (Hfr : frames (_frame_stream (advance_n m (advance it))) = []).
    { rewrite advance_n_frames, advance_frames.
      apply (after_barriers_nil (S m)). exact Hlen. }
    rewrite published_done.
    2:{ simpl. rewrite has_next_frames, Hfr; [reflexivity|].
        now apply coherent_advance_n, coherent_advance. }
    repeat split; auto.
    processed_norm.
    rewrite Hp, advance_frames. f_equal.
    apply (through_barriers_all (S m)). exact Hlen.
  - rewrite process_one_stale_eq; auto.
    unfold started. destruct (has_last_Java_frame j) eqn:Hj.
    + destruct (process_one_repeat m (bootstrap j) j g
                  (t ++ [EvLock]
                     ++ process_events NULL (through_barriers 3 (stack j))
                     ++ [EvStoreWatermark
                           (fst (published (Some (bootstrap j)) g));
                         EvStoreState
                           (snd (published (Some (bootstrap j)) g));
                         EvUnlock]))
        as (seg & Heq & Hp).
      { apply coherent_bootstrap. }
      { intro HA. rewrite bootstrap_frames.
        now apply nonzero_after_barriers_more, Hnz. }
      rewrite Heq. eexists. split; [reflexivity|]. cbn [wm _state _watermark
        _iterator trace frames_of].
      assert (Hfr : frames (_frame_stream (advance_n m (bootstrap j))) = []).
      { rewrite advance_n_frames, bootstrap_frames.
        rewrite <- after_barriers_add.
        apply after_barriers_nil. lia. }
      rewrite published_done.
      2:{ simpl. rewrite has_next_frames, Hfr; [reflexivity|].
          apply coherent_advance_n, coherent_bootstrap. }
      repeat split; auto.
      processed_norm.
      rewrite Hp, bootstrap_frames, <- through_barriers_add. f_equal.
      apply through_barriers_all. lia.
    + destruct (process_one_repeat_idle m
                  (snd (published None g)) (fst (published None g)) j g
                  (t ++ [EvLock]
                     ++ process_events NULL (through_barriers 3 (stack j))
                     ++ [EvStoreWatermark (fst (published None g));
                         EvStoreState (snd (published None g));
                         EvUnlock]))
        as (seg & Heq & Hp).
      { now rewrite epoch_published, N.eqb_refl. }
      rewrite Heq. eexists. split; [reflexivity|]. cbn [wm _state _watermark
        _iterator trace frames_of].
      unfold has_last_Java_frame in Hj.
      destruct (stack j) eqn:Hs; [|discriminate].
      repeat split; auto.
      processed_norm. rewrite Hp. simpl.
      now rewrite ?app_nil_r.
Qed.

End Progress.

(** ** Properties of whole runs *)

Section WholeRuns.

Variable ASSERT : bool.
Variable sender : frame -> frame.

Lemma run_from_initial (e g : uint32_t) (fs : list frame)
    (acts : list action) :
  nonzero_sps fs && stacks_all nonzero_sps acts = true ->
  (ASSERT = true -> ascending fs && stacks_all ascending acts = true) ->
  exists w',
    run ASSERT sender acts (initial e fs g) = Ok tt w'
    /\ inv (ASSERT = true) w'
    /\ settled w' = true
    /\ lock_discipline false (trace w') = Some false.
Proof.
  intros Hnz Hasc. apply andb_true_iff in Hnz. destruct Hnz as [Hnz Hnzs].
  destruct (run_more ASSERT sender (ASSERT = true) (fun H => H) acts
              (initial e fs g))
    as (w' & seg & Heq & Hinv & Hset & Htr & Hld); auto.
  - apply inv_initial; auto.
    intro HA. specialize (Hasc HA). apply andb_true_iff in Hasc. tauto.
  - intro HA. specialize (Hasc HA). apply andb_true_iff in Hasc. tauto.
  - exists w'. simpl in Htr. subst seg. auto.
Qed.

(** X7: the lock is kept to.  In the trace of any run the lock is taken
    only when it is free and released only when it is held, every call of
    the processing callback and every store to the watermark or the state
    word happens while it is held, and it is free again when the run
    ends. *)
Theorem run_keeps_lock_discipline (e g : uint32_t) (fs : list frame)
    (acts : list action) :
  nonzero_sps fs && stacks_all nonzero_sps acts = true ->
  (ASSERT = true -> ascending fs && stacks_all ascending acts = true) ->
  exists w',
    run ASSERT sender acts (initial e fs g) = Ok tt w'
    /\ lock_discipline false (trace w') = Some false.
Proof.
  intros Hnz Hasc.
  destruct (run_from_initial e g fs acts Hnz Hasc) as (w' & Heq & _ & _ & H).
  exists w'. auto.
Qed.

(** X8: after construction and after every operation of any run, the
    state word says not done exactly when a cursor exists that still has
    frames to visit. *)
Theorem not_done_iff_frames_left (e g : uint32_t) (fs : list frame)
    (acts : list action) :
  nonzero_sps fs && stacks_all nonzero_sps acts = true ->
  (ASSERT = true -> ascending fs && stacks_all ascending acts = true) ->
  exists w',
    run ASSERT sender acts (initial e fs g) = Ok tt w'
    /\ (is_done (_state (wm w')) = false
        <-> exists it, _iterator (wm w') = Some it /\ has_next it = true).
Proof.
  intros Hnz Hasc.
  destruct (run_from_initial e g fs acts Hnz Hasc) as (w' & Heq & _ & H & _).
  exists w'. split; [exact Heq|].
  unfold settled in H. apply eqb_prop in H. rewrite H.
  destruct (_iterator (wm w')) as [it|]; simpl.
  - rewrite negb_false_iff. split.
    + intro Hn. now exists it.
    + now intros (it' & [= <-] & Hn).
  - split; [discriminate|]. now intros (it' & Habs & _).
Qed.

End WholeRuns.

Section SafeFrames.

Variable ASSERT : bool.
Variable sender : frame -> frame.

Lemma is_frame_safe_frame_safe fr w :
  answer (is_frame_safe sender fr w) = Some (frame_safe sender fr w).
Proof.
  destruct w as [[s k oit l] j g t]. now rewrite is_frame_safe_eq.
Qed.

Lemma perform_safe fr a w w' :
  inv True w -> settled w = true ->
  same_epoch [a] = true ->
  perform ASSERT sender a w = Ok tt w' ->
  frame_safe sender fr w = true -> frame_safe sender fr w' = true.
Proof.
  intros Hinv Hset Hsame Heq Hsafe.
  destruct w as [[s k oit l] j g t].
  unfold frame_safe, stale in Hsafe. simpl in Hsafe.
  destruct (epoch s =? g) eqn:Hst; [|discriminate]. simpl in Hsafe.
  assert (Hkeep : forall l' j' t',
    frame_safe sender fr
      (MkWorld (Controller s k oit l') j' g t') = true).
  { intros. unfold frame_safe, stale. simpl. now rewrite Hst. }
  destruct a as [e|fs| | |ctx|fr'| |]; cbn [perform] in Heq;
    try discriminate.
  - injection Heq as <-. apply Hkeep.
  - rewrite start_iteration_current_eq in Heq
      by (unfold stale; simpl; now rewrite Hst).
    injection Heq as <-. apply Hkeep.
  - destruct oit as [it|].
    + destruct Hinv as (_ & Hnz & Hasc & Hit).
      destruct (Hit it eq_refl) as (Hitco & Hitnz & Hitok).
      specialize (Hitok I).
      rewrite process_one_active_eq in Heq by auto.
      injection Heq as <-.
      unfold frame_safe, stale. simpl.
      rewrite epoch_published, N.eqb_refl, is_done_published. simpl.
      destruct (has_next (advance it)) eqn:Hn; [simpl|reflexivity].
      unfold settled in Hset. simpl in Hset. apply eqb_prop in Hset.
      destruct (is_done s).
      * symmetry in Hset. apply negb_true_iff in Hset.
        rewrite (advance_done it (no_next_frames it Hitco Hset)) in Hn.
        congruence.
      * apply N.ltb_lt in Hsafe. apply N.ltb_lt.
        pose proof (caller_advance_mono it Hitok). lia.
    + rewrite process_one_idle_eq in Heq by exact Hst.
      injection Heq as <-. apply Hkeep.
  - destruct (finish_iteration_eq ASSERT ctx s k oit l j g t)
      as (t' & Heq' & _).
    { intros _ it Ho. apply (proj2 (proj2 (proj2 Hinv)) it Ho). }
    { intros _. rewrite Hst. intros it Ho.
      now apply (proj2 (proj2 (proj2 Hinv)) it Ho). }
    rewrite Heq' in Heq. injection Heq as <-.
    unfold frame_safe, stale. simpl. now rewrite N.eqb_refl.
  - unfold bind in Heq. rewrite is_frame_safe_eq in Heq. unfold ret in Heq.
    injection Heq as <-. apply Hkeep.
  - injection Heq as <-. apply Hkeep.
  - destruct (last_processed_eq s k oit l j g t) as (a & Heq').
    unfold bind in Heq. rewrite Heq' in Heq. unfold ret in Heq.
    injection Heq as <-. apply Hkeep.
Qed.

Lemma run_safe fr : forall acts w,
  inv True w -> settled w = true ->
  stacks_all nonzero_sps acts = true ->
  stacks_all ascending acts = true ->
  same_epoch acts = true ->
  exists w',
    run ASSERT sender acts w = Ok tt w'
    /\ (frame_safe sender fr w = true -> frame_safe sender fr w' = true).
Proof.
  induction acts as [|a acts IH]; intros w Hinv Hset Hnz Hasc Hsame.
  - exists w. auto.
  - assert (Hsame1 : same_epoch [a] = true /\ same_epoch acts = true)
      by (destruct a; simpl in *; auto; discriminate).
    destruct Hsame1 as [Hsame1 Hsame'].
    apply stacks_all_cons in Hnz, Hasc.
    destruct Hnz as [Hnza Hnz], Hasc as [Hasca Hasc].
    assert (Ha : action_ok True a) by (destruct a; simpl; auto).
    destruct (perform_more ASSERT sender True (fun _ => I) a w Hinv Hset Ha)
      as (w1 & seg1 & Heq1 & Hinv1 & Hset1 & _).
    destruct (IH w1 Hinv1 Hset1 Hnz Hasc Hsame') as (w' & Heq & Hmono).
    exists w'. cbn [run]. unfold bind. rewrite Heq1.
    split; [exact Heq|]. intro H. apply Hmono.
    exact (perform_safe fr a w w1 Hinv Hset Hsame1 Heq1 H).
Qed.

(** X9: within one epoch [is_frame_safe] never goes back.  If it answers
    true for a frame at some point of a run, it answers true for that frame
    after any further operations and stack changes, as long as the global
    epoch stays the same.  Stacks run from top to bottom. *)
Theorem is_frame_safe_monotonic (e g : uint32_t) (fs : list frame)
    (before after : list action) (fr : frame) :
  top_to_bottom fs && stacks_all top_to_bottom before
    && stacks_all top_to_bottom after = true ->
  same_epoch after = true ->
  exists w1 w2,
    run ASSERT sender before (initial e fs g) = Ok tt w1
    /\ run ASSERT sender after w1 = Ok tt w2
    /\ (answer (is_frame_safe sender fr w1) = Some true ->
        answer (is_frame_safe sender fr w2) = Some true).
Proof.
  intros H Hsame. rewrite !andb_true_iff in H.
  destruct H as [[Hfs Hb] Ha].
  unfold top_to_bottom in *. rewrite stacks_all_and in Hb, Ha.
  apply andb_true_iff in Hfs, Hb, Ha.
  destruct Hfs as [Hnz Hasc], Hb as [Hbnz Hbasc], Ha as [Hanz Haasc].
  destruct (run_more ASSERT sender True (fun _ => I) before (initial e fs g))
    as (w1 & seg & Heq1 & Hinv1 & Hset1 & _); auto.
  { apply inv_initial; auto. }
  destruct (run_safe fr after w1 Hinv1 Hset1 Hanz Haasc Hsame)
    as (w2 & Heq2 & Hmono).
  exists w1, w2. split; [exact Heq1|]. split; [exact Heq2|].
  rewrite !is_frame_safe_frame_safe. intros [= H]. now rewrite Hmono.
Qed.

End SafeFrames.

(** ** What a cursor has visited *)

Section Visited.

Variable ASSERT : bool.

Lemma known_incl S S' a : incl S S' -> known S a -> known S' a.
Proof. intros Hi [H | H]; [now left | right; auto]. Qed.

Lemma set_watermark_known S a it :
  known S (callee it) -> known S (caller it) -> known S a ->
  known S (callee (set_watermark a it))
  /\ known S (caller (set_watermark a it)).
Proof.
  intros He Hc Ha. unfold set_watermark, callee, caller in *.
  destruct (negb (has_next it)), (_callee it =? 0), (_caller it =? 0);
    simpl; auto.
Qed.

Lemma visit_known S it f :
  known S (callee it) -> known S (caller it) ->
  (has_barrier f = true -> In (sp f) S) ->
  known S (callee (visit it f)) /\ known S (caller (visit it f)).
Proof.
  intros He Hc Hf. unfold visit.
  destruct (has_barrier f); [|auto].
  apply set_watermark_known; auto. right. auto.
Qed.

Lemma walk_known S : forall vs it,
  known S (callee it) -> known S (caller it) ->
  incl (barrier_sps vs) S ->
  known S (callee (walk vs it)) /\ known S (caller (walk vs it)).
Proof.
  induction vs as [|f vs IH]; intros it He Hc Hi; [auto|].
  rewrite walk_cons.
  assert (Hf : has_barrier f = true -> In (sp f) S).
  { intro Hb. apply Hi. unfold barrier_sps. simpl. rewrite Hb. now left. }
  destruct (visit_known S it f He Hc Hf) as [He' Hc'].
  apply IH; auto.
  intros a Ha. apply Hi. unfold barrier_sps in *. simpl.
  destruct (has_barrier f); [now right | exact Ha].
Qed.

Lemma barrier_sps_app vs1 vs2 :
  barrier_sps (vs1 ++ vs2) = barrier_sps vs1 ++ barrier_sps vs2.
Proof. unfold barrier_sps. now rewrite filter_app, map_app. Qed.

Lemma visited_inv_walk fs t0 it t vs rest t' :
  frames (_frame_stream it) = vs ++ rest ->
  processed t' = processed t ++ vs ->
  visited_inv fs t0 it t -> visited_inv fs t0 (walk vs it) t'.
Proof.
  intros Hfr Ht (visited & Hfs & Hp & He & Hc).
  exists (visited ++ vs). rewrite (walk_frames vs rest it Hfr).
  split; [now rewrite Hfs, Hfr, app_assoc|].
  split; [now rewrite Ht, Hp, app_assoc|].
  rewrite barrier_sps_app. apply walk_known.
  - eapply known_incl; [|exact He]. now apply incl_appl.
  - eapply known_incl; [|exact Hc]. now apply incl_appl.
  - now apply incl_appr.
Qed.

Lemma cursor_run_visited fs t0 : forall cs s k it j g t,
  coherent it = true ->
  (ASSERT = true -> cursor_ok it = true) ->
  visited_inv fs t0 it t ->
  exists s' k' t' it',
    cursor_run ASSERT cs (MkWorld (Controller s k (Some it) true) j g t)
    = Ok tt (MkWorld (Controller s' k' (Some it') true) j g t')
    /\ visited_inv fs t0 it' t'.
Proof.
  induction cs as [|c cs IH]; intros s k it j g t Hco Hok Hinv.
  - exists s, k, t, it. split; [reflexivity | exact Hinv].
  - destruct c as [ctx|ctx]; cbn [cursor_run cursor_step]; unfold bind at 1.
    + rewrite iterator_process_one_eq by exact Hco.
      apply IH.
      * now apply coherent_advance.
      * intro HA. apply advance_ok; auto.
      * unfold advance.
        apply visited_inv_walk
          with (t := t) (rest := after_barrier (frames (_frame_stream it)));
          auto.
        -- symmetry. apply through_after.
        -- now rewrite processed_app, processed_process_events.
    + destruct (iterator_process_all_paced ASSERT ctx s k it j g t Hco Hok)
        as (s' & k' & t' & Heq & Hp & _).
      rewrite Heq. apply IH.
      * now apply coherent_drain.
      * intro HA. apply drain_ok; auto.
      * unfold drain.
        apply visited_inv_walk with (t := t) (rest := []); auto.
        -- now rewrite app_nil_r.
        -- now rewrite processed_app, Hp.
Qed.

Lemma visited_inv_new fs t0 :
  visited_inv fs t0 (new_StackWatermarkIterator (Thread fs)) t0.
Proof.
  exists []. simpl. rewrite app_nil_r.
  repeat split; auto; now left.
Qed.

(** X10: every frame is handed to the callback once, in stack order, and
    none is skipped.  However a cursor built over the stack [fs] is
    advanced, what the trace has gained of processed frames and what the
    cursor has left make up [fs]. *)
Theorem frames_processed_once (fs : list frame) (cs : list cursor_call)
    (w : World) :
  _iterator (wm w) = Some (new_StackWatermarkIterator (Thread fs)) ->
  _lock (wm w) = true ->
  (ASSERT = true -> top_to_bottom fs = true) ->
  exists w' it visited,
    cursor_run ASSERT cs w = Ok tt w'
    /\ _iterator (wm w') = Some it
    /\ processed (trace w') = processed (trace w) ++ visited
    /\ visited ++ frames (_frame_stream it) = fs.
Proof.
  destruct w as [[s k oit l] j g t]. simpl. intros -> -> Hok.
  destruct (cursor_run_visited fs t cs s k
              (new_StackWatermarkIterator (Thread fs)) j g t)
    as (s' & k' & t' & it' & Heq & visited & Hfs & Hp & _).
  - apply coherent_new.
  - intro HA. apply cursor_ok_new, Hok, HA.
  - apply visited_inv_new.
  - rewrite Heq. exists (MkWorld (Controller s' k' (Some it') true) j g t'),
      it', visited. simpl. auto.
Qed.

(** X11: the boundaries only ever hold addresses of frames that have been
    processed.  However a cursor built over [fs] is advanced, its callee
    and caller boundaries are each 0 or the address of a barrier frame that
    the trace shows as handed to the callback since the cursor was built. *)
Theorem boundaries_are_processed (fs : list frame) (cs : list cursor_call)
    (w : World) :
  _iterator (wm w) = Some (new_StackWatermarkIterator (Thread fs)) ->
  _lock (wm w) = true ->
  (ASSERT = true -> top_to_bottom fs = true) ->
  exists w' it visited,
    cursor_run ASSERT cs w = Ok tt w'
    /\ _iterator (wm w') = Some it
    /\ processed (trace w') = processed (trace w) ++ visited
    /\ (callee it = 0
        \/ exists f, In f visited /\ has_barrier f = true
                     /\ sp f = callee it)
    /\ (caller it = 0
        \/ exists f, In f visited /\ has_barrier f = true
                     /\ sp f = caller it).
Proof.
  destruct w as [[s k oit l] j g t]. simpl. intros -> -> Hok.
  destruct (cursor_run_visited fs t cs s k
              (new_StackWatermarkIterator (Thread fs)) j g t)
    as (s' & k' & t' & it' & Heq & visited & Hfs & Hp & He & Hc).
  - apply coherent_new.
  - intro HA. apply cursor_ok_new, Hok, HA.
  - apply visited_inv_new.
  - assert (Hk : forall a, known (barrier_sps visited) a ->
                 a = 0 \/ exists f, In f visited /\ has_barrier f = true
                                    /\ sp f = a).
    { intros a [H | H]; [now left | right].
      unfold barrier_sps in H. apply in_map_iff in H.
      destruct H as (f & Hsp & Hin). apply filter_In in Hin.
      exists f. tauto. }
    rewrite Heq. exists (MkWorld (Controller s' k' (Some it') true) j g t'),
      it', visited. simpl.
    split; [reflexivity|]. split; [reflexivity|]. split; [exact Hp|].
    split; apply Hk; assumption.
Qed.

End Visited.

(** ** The context, and short stacks *)

Section Contexts.

Variable ASSERT : bool.

Lemma contexts_length tr :
  List.length (contexts tr) = List.length (processed tr).
Proof.
  induction tr as [|e tr IH]; simpl; [reflexivity|].
  destruct e; simpl; now rewrite ?IH.
Qed.

Lemma Forall_eq_repeat (c : context) l :
  Forall (fun x => x = c) l -> l = repeat c (List.length l).
Proof.
  induction 1 as [|x l Hx _ IH]; simpl; [reflexivity|].
  now rewrite Hx, <- IH.
Qed.

Lemma contexts_all ctx seg fs :
  Forall (fun c => c = ctx) (contexts seg) ->
  processed seg = fs ->
  contexts seg = repeat ctx (List.length fs).
Proof.
  intros Hall <-. rewrite <- contexts_length.
  now apply Forall_eq_repeat.
Qed.

Lemma Forall_contexts_app ctx t1 t2 :
  Forall (fun c => c = ctx) (contexts t1) ->
  Forall (fun c => c = ctx) (contexts t2) ->
  Forall (fun c => c = ctx) (contexts (t1 ++ t2)).
Proof. intros H1 H2. rewrite contexts_app. apply Forall_app. auto. Qed.

(** X12: [finish_iteration] hands its own context to every callback it
    causes, also to those of an iteration it has to start first: the
    contexts of the calls it adds to the trace are [ctx], once for each
    frame that was left. *)
Theorem finish_iteration_passes_context (ctx : context) (w : World) :
  coherent_cursor w = true ->
  (ASSERT = true -> walkable w = true) ->
  exists w' seg,
    finish_iteration ASSERT ctx w = Ok tt w'
    /\ trace w' = trace w ++ seg
    /\ contexts seg = repeat ctx (List.length (remaining w)).
Proof.
  destruct w as [[s k oit l] j g t].
  unfold walkable, remaining, stale, coherent_cursor.
  simpl. intros Hco Hpre.
  destruct (finish_iteration_eq ASSERT ctx s k oit l j g t)
    as (t' & Heq & Hp & Hpaced & Hnone).
  { intros _ it ->. exact Hco. }
  { intro HA. specialize (Hpre HA).
    destruct (epoch s =? g); simpl in Hpre; [|exact Hpre].
    intros it ->. exact Hpre. }
  rewrite Heq. eexists. eexists. split; [reflexivity|].
  cbn [trace]. split; [reflexivity|].
  apply contexts_all.
  - apply (Forall_contexts_app ctx [EvLock]); [constructor|].
    apply Forall_contexts_app; [|apply Forall_contexts_app].
    + unfold forced_start. destruct (epoch s =? g); [constructor|].
      apply Forall_contexts_app; [apply contexts_process_events|].
      constructor.
    + destruct (forced_cursor s oit j g) as [it|] eqn:Hf.
      * eapply paced_contexts, Hpaced. reflexivity.
      * rewrite Hnone by reflexivity. constructor.
    + constructor.
  - processed_norm. rewrite Hp. cbn [processed]. rewrite ?app_nil_r.
    unfold forced_start, forced_cursor.
    destruct (epoch s =? g); cbn [negb].
    + reflexivity.
    + processed_norm.
      unfold started, has_last_Java_frame.
      destruct (stack j) eqn:Hs; [reflexivity|].
      cbn [frames_of]. rewrite <- Hs, bootstrap_frames.
      apply through_after_n.
Qed.

(** X13: the operations a running thread calls on itself never pass a
    context: every callback that [process_one] or [start_iteration] causes
    gets the null context, whether the call continues an iteration or
    starts one. *)
Theorem mutator_calls_pass_null (w : World) :
  coherent_cursor w = true ->
  (ASSERT = true -> nonzero_sps (remaining w) = true) ->
  (exists w1 seg1,
     process_one ASSERT w = Ok tt w1
     /\ trace w1 = trace w ++ seg1
     /\ Forall (fun c => c = NULL) (contexts seg1))
  /\ (exists w2 seg2,
        start_iteration ASSERT w = Ok tt w2
        /\ trace w2 = trace w ++ seg2
        /\ Forall (fun c => c = NULL) (contexts seg2)).
Proof.
  destruct w as [[s k oit l] j g t].
  unfold remaining, stale, coherent_cursor. simpl. intros Hco Hnz.
  assert (Hcall : forall fs a b,
    Forall (fun c => c = NULL)
      (contexts ([EvLock] ++ process_events NULL fs
                   ++ [EvStoreWatermark a; EvStoreState b; EvUnlock]))).
  { intros fs a b. apply (Forall_contexts_app NULL [EvLock]); [constructor|].
    apply Forall_contexts_app; [apply contexts_process_events|].
    constructor. }
  destruct (epoch s =? g) eqn:Hst; simpl in Hnz.
  - split.
    + destruct oit as [it|].
      * rewrite process_one_active_eq by auto.
        eexists. eexists. split; [reflexivity|]. cbn [trace].
        split; [reflexivity|]. apply Hcall.
      * rewrite process_one_idle_eq by exact Hst.
        eexists. exists [EvLock; EvUnlock]. split; [reflexivity|].
        split; [reflexivity|]. constructor.
    + rewrite start_iteration_current_eq
        by (unfold stale; simpl; now rewrite Hst).
      eexists. exists []. split; [reflexivity|]. cbn [trace].
      rewrite app_nil_r. split; [reflexivity | constructor].
  - split.
    + rewrite process_one_stale_eq by auto.
      eexists. eexists. split; [reflexivity|]. cbn [trace].
      split; [reflexivity|]. apply Hcall.
    + rewrite start_iteration_stale_eq by auto.
      eexists. eexists. split; [reflexivity|]. cbn [trace].
      split; [reflexivity|]. apply Hcall.
Qed.

Lemma after_barrier_none fs :
  filter has_barrier fs = [] -> after_barrier fs = [].
Proof.
  induction fs as [|f fs IH]; simpl; [reflexivity|].
  destruct (has_barrier f); [discriminate | exact IH].
Qed.

Lemma after_barrier_count fs :
  List.length (filter has_barrier (after_barrier fs))
  = Nat.pred (List.length (filter has_barrier fs)).
Proof.
  induction fs as [|f fs IH]; simpl; [reflexivity|].
  destruct (has_barrier f); [reflexivity | exact IH].
Qed.

Lemma after_barriers_few : forall n fs,
  (List.length (filter has_barrier fs) < n)%nat -> after_barriers n fs = [].
Proof.
  induction n as [|n IH]; intros fs Hn; [lia|]. simpl.
  destruct (filter has_barrier fs) eqn:Hf.
  - rewrite after_barrier_none by exact Hf.
    apply after_barriers_nil. simpl. lia.
  - apply IH. rewrite after_barrier_count, Hf. simpl in *. lia.
Qed.

(** X14: a short stack is done at once.  When the thread's stack has fewer
    than three barrier frames, starting an iteration on a stale epoch
    already finishes it: every frame of the stack has been processed, the
    watermark is 0 and the state word says done for the current epoch. *)
Theorem short_stack_done_at_once (w : World) :
  stale w = true ->
  barrier_count (stack (jt w)) < 3 ->
  (ASSERT = true -> nonzero_sps (stack (jt w)) = true) ->
  exists w',
    start_iteration ASSERT w = Ok tt w'
    /\ _state (wm w') = create (epoch_id w) true
    /\ _watermark (wm w') = 0
    /\ frames_of (_iterator (wm w')) = []
    /\ processed (trace w') = processed (trace w) ++ stack (jt w).
Proof.
  destruct w as [[s k oit l] j g t]. unfold stale, barrier_count. simpl.
  intros Hst Hfew Hnz.
  apply negb_true_iff in Hst.
  assert (Hrest : after_barriers 3 (stack j) = [])
    by (apply after_barriers_few; lia).
  assert (Hthrough : through_barriers 3 (stack j) = stack j).
  { pose proof (through_after_n 3 (stack j)) as H.
    rewrite Hrest, app_nil_r in H. exact H. }
  assert (Hdone : cursor_has_next (started j) = false).
  { unfold started. destruct (has_last_Java_frame j); [|reflexivity].
    simpl. rewrite has_next_frames by apply coherent_bootstrap.
    now rewrite bootstrap_frames, Hrest. }
  rewrite start_iteration_stale_eq by auto.
  rewrite (published_done _ g Hdone).
  eexists. split; [reflexivity|]. cbn [wm _state _watermark _iterator trace fst snd].
  split; [reflexivity|]. split; [reflexivity|]. split.
  - unfold started. destruct (has_last_Java_frame j); [|reflexivity].
    simpl. now rewrite bootstrap_frames.
  - processed_norm. now rewrite Hthrough.
Qed.

End Contexts.

(** ** The further properties on sample worlds *)

Lemma start_iteration_idempotent_witness :
  exists w1,
    start_iteration true stub_in_middle = Ok tt w1
    /\ stale w1 = false
    /\ epoch_id w1 = 2
    /\ start_iteration true w1 = Ok tt w1.
Proof.
  destruct (start_iteration_idempotent true stub_in_middle)
    as (w1 & Heq & Hst & He & Hagain).
  - intros _. reflexivity.
  - exists w1. split; [exact Heq|]. split; [exact Hst|].
    split; [exact He | exact Hagain].
Defined.

Lemma stale_iteration_discarded_witness :
  process_one true stub_in_middle
  = process_one true
      (MkWorld (Controller (create 0 false) 32
                  (_iterator (wm mid_iteration)) false)
               (jt stub_in_middle) 2 [])
  /\ finish_iteration true 7 stub_in_middle
     = finish_iteration true 7
         (MkWorld (Controller (create 0 false) 32
                     (_iterator (wm mid_iteration)) false)
                  (jt stub_in_middle) 2 []).
Proof.
  destruct (stale_iteration_discarded true 7 stub_in_middle
              (MkWorld (Controller (create 0 false) 32
                          (_iterator (wm mid_iteration)) false)
                       (jt stub_in_middle) 2 []))
    as (Hone & _ & Hfin).
  - reflexivity.
  - reflexivity.
  - reflexivity.
  - reflexivity.
  - reflexivity.
  - intros _. reflexivity.
  - split; [exact Hone | exact Hfin].
Defined.

Lemma update_watermark_assertions_witness :
  update_watermark true idle_world = Fatal "invariant"
  /\ update_watermark true
       (MkWorld (Controller (create 2 false) 0
                   (Some (new_StackWatermarkIterator (Thread long_stack)))
                   true)
                (Thread long_stack) 2 [])
     = Fatal "sanity".
Proof.
  split.
  - apply (proj1 (update_watermark_assertions true idle_world));
      reflexivity.
  - apply (proj1 (proj2 (update_watermark_assertions true
             (MkWorld (Controller (create 2 false) 0
                         (Some (new_StackWatermarkIterator
                                  (Thread long_stack))) true)
                      (Thread long_stack) 2 [])))
             eq_refl eq_refl
             (new_StackWatermarkIterator (Thread long_stack)));
      reflexivity.
Defined.

Lemma finish_iteration_leaves_exhausted :
  finish_iteration true 7 mid_iteration = Ok tt exhausted.
Proof. vm_compute. reflexivity. Qed.

Lemma done_is_stable_witness :
  (exists w',
     perform true no_sender ProcessOne exhausted = Ok tt w'
     /\ _state (wm w') = create 2 true
     /\ processed (trace w')
        = [plain_frame 40; barrier_frame 48; barrier_frame 56]
     /\ _watermark (wm w') = 0)
  /\ (exists w',
        perform true no_sender (FinishIteration 9) exhausted = Ok tt w'
        /\ _state (wm w') = create 2 true
        /\ processed (trace w')
           = [plain_frame 40; barrier_frame 48; barrier_frame 56]
        /\ _watermark (wm w') = 0)
  /\ (exists w',
        perform true no_sender StartIteration exhausted = Ok tt w'
        /\ _state (wm w') = create 2 true
        /\ processed (trace w')
           = [plain_frame 40; barrier_frame 48; barrier_frame 56]
        /\ _watermark (wm w') = 0).
Proof.
  split; [|split].
  - destruct (done_is_stable true no_sender ProcessOne exhausted)
      as (w' & Heq & Hs & _ & _ & Hp & Hw).
    + reflexivity.
    + reflexivity.
    + reflexivity.
    + reflexivity.
    + reflexivity.
    + exists w'. split; [exact Heq|]. split; [exact Hs|].
      split; [exact Hp | exact (Hw eq_refl)].
  - destruct (done_is_stable true no_sender (FinishIteration 9) exhausted)
      as (w' & Heq & Hs & _ & _ & Hp & Hw).
    + reflexivity.
    + reflexivity.
    + reflexivity.
    + reflexivity.
    + reflexivity.
    + exists w'. split; [exact Heq|]. split; [exact Hs|].
      split; [exact Hp | exact (Hw eq_refl)].
  - destruct (done_is_stable true no_sender StartIteration exhausted)
      as (w' & Heq & Hs & _ & _ & Hp & Hw).
    + reflexivity.
    + reflexivity.
    + reflexivity.
    + reflexivity.
    + reflexivity.
    + exists w'. split; [exact Heq|]. split; [exact Hs|].
      split; [exact Hp | exact (Hw eq_refl)].
Defined.

Lemma process_one_reaches_done_witness :
  exists w',
    run true no_sender [ProcessOne; ProcessOne; ProcessOne] mid_iteration
    = Ok tt w'
    /\ _state (wm w') = create 2 true
    /\ _watermark (wm w') = 0
    /\ processed (trace w')
       = [plain_frame 40; barrier_frame 48; barrier_frame 56].
Proof.
  destruct (process_one_reaches_done true no_sender 3 mid_iteration)
    as (w' & Heq & Hs & Hw & _ & Hp).
  - reflexivity.
  - intros _. reflexivity.
  - reflexivity.
  - simpl. lia.
  - simpl. lia.
  - exists w'. split; [exact Heq|]. split; [exact Hs|].
    split; [exact Hw | exact Hp].
Defined.

Lemma run_keeps_lock_discipline_witness :
  exists w',
    run true no_sender busy_life (initial 1 (stack (jt stub_in_middle)) 2)
    = Ok tt w'
    /\ lock_discipline false (trace w') = Some false.
Proof.
  apply (run_keeps_lock_discipline true no_sender 1 2
           (stack (jt stub_in_middle)) busy_life).
  - reflexivity.
  - intros _. reflexivity.
Defined.

Lemma not_done_iff_frames_left_witness :
  exists w',
    run true no_sender [StartIteration; ProcessOne]
      (initial 1 (stack (jt stub_in_middle)) 2) = Ok tt w'
    /\ (is_done (_state (wm w')) = false
        <-> exists it, _iterator (wm w') = Some it /\ has_next it = true).
Proof.
  apply (not_done_iff_frames_left true no_sender 1 2
           (stack (jt stub_in_middle)) [StartIteration; ProcessOne]).
  - reflexivity.
  - intros _. reflexivity.
Defined.

Lemma is_frame_safe_monotonic_witness :
  exists w1 w2,
    run true no_sender [StartIteration]
      (initial 1 (stack (jt stub_in_middle)) 2) = Ok tt w1
    /\ run true no_sender [ProcessOne; FinishIteration 7] w1 = Ok tt w2
    /\ (answer (is_frame_safe no_sender (barrier_frame 16) w1) = Some true ->
        answer (is_frame_safe no_sender (barrier_frame 16) w2) = Some true).
Proof.
  apply (is_frame_safe_monotonic true no_sender 1 2
           (stack (jt stub_in_middle)) [StartIteration]
           [ProcessOne; FinishIteration 7] (barrier_frame 16)).
  - reflexivity.
  - reflexivity.
Defined.

Lemma frames_processed_once_witness :
  exists w' it visited,
    cursor_run true [CursorProcessOne 0; CursorProcessAll 7] long_walk
    = Ok tt w'
    /\ _iterator (wm w') = Some it
    /\ processed (trace w') = visited
    /\ visited ++ frames (_frame_stream it) = long_stack.
Proof.
  apply (frames_processed_once true long_stack
           [CursorProcessOne 0; CursorProcessAll 7] long_walk).
  - reflexivity.
  - reflexivity.
  - intros _. reflexivity.
Defined.

Lemma boundaries_are_processed_witness :
  exists w' it visited,
    cursor_run true [CursorProcessOne 0; CursorProcessOne 0] long_walk
    = Ok tt w'
    /\ _iterator (wm w') = Some it
    /\ processed (trace w') = visited
    /\ (callee it = 0
        \/ exists f, In f visited /\ has_barrier f = true
                     /\ sp f = callee it)
    /\ (caller it = 0
        \/ exists f, In f visited /\ has_barrier f = true
                     /\ sp f = caller it).
Proof.
  apply (boundaries_are_processed true long_stack
           [CursorProcessOne 0; CursorProcessOne 0] long_walk).
  - reflexivity.
  - reflexivity.
  - intros _. reflexivity.
Defined.

Lemma finish_iteration_passes_context_witness :
  exists w' seg,
    finish_iteration true 7 stub_in_middle = Ok tt w'
    /\ trace w' = seg
    /\ contexts seg = [7; 7; 7; 7; 7; 7].
Proof.
  apply (finish_iteration_passes_context true 7 stub_in_middle).
  - reflexivity.
  - intros _. reflexivity.
Defined.

Lemma mutator_calls_pass_null_witness :
  exists w1 seg1,
    process_one true mid_iteration = Ok tt w1
    /\ trace w1 = seg1
    /\ Forall (fun c => c = NULL) (contexts seg1).
Proof.
  destruct (mutator_calls_pass_null true mid_iteration) as [Hone _].
  - reflexivity.
  - intros _. reflexivity.
  - exact Hone.
Defined.

Lemma short_stack_done_at_once_witness :
  exists w',
    start_iteration true
      (initial 1 [plain_frame 8; barrier_frame 16; barrier_frame 24] 2)
    = Ok tt w'
    /\ _state (wm w') = create 2 true
    /\ _watermark (wm w') = 0
    /\ frames_of (_iterator (wm w')) = []
    /\ processed (trace w')
       = [plain_frame 8; barrier_frame 16; barrier_frame 24].
Proof.
  apply (short_stack_done_at_once true
           (initial 1 [plain_frame 8; barrier_frame 16; barrier_frame 24] 2)).
  - reflexivity.
  - reflexivity.
  - intros _. reflexivity.
Defined.
